(** * dpar: a transition-based dependency parser

    A shallow embedding of the arc-standard transition system, its static
    oracle, the greedy parsing driver, the feature addressing and hashing
    code and the hashing SVM guide, followed by the properties proved of
    them.

    Conventions of the embedding.
    - Go's [uint] is modelled by [N] and Go's [int] by [Z]; where the code
      converts or computes at 64 bits the wrap-around is written out
      ([int_of_uint], [uint64_of_int]).
    - A slice is a [list]; indexing out of range panics, which is explicit
      in the result type [go].
    - A Go [string] is a sequence of bytes: [string].
    - A [float64] is a primitive binary64 [float]. *)

From Stdlib Require Import ZArith NArith String Ascii List Lia Floats.
From Stdlib Require Import DecimalString.
From Stdlib.Strings Require Import Byte.
From stdpp Require Import base gmap sets list strings.

Open Scope Z_scope.

(** ** The Go run time: panics, errors, slices *)

Module goruntime.

(** A Go computation either returns or panics. *)
Inductive go (A : Type) : Type :=
  | Returns (a : A)
  | Panics (msg : string).
Arguments Returns {A} a.
Arguments Panics {A} msg.

#[global] Instance go_ret : MRet go := fun A a => Returns a.

#[global] Instance go_bind : MBind go := fun A B k m =>
  match m with
  | Returns a => k a
  | Panics msg => Panics msg
  end.

#[global] Instance go_eq_dec {A} `{EqDecision A} : EqDecision (go A).
Proof. solve_decision. Defined.

(** A Go function of result type [(T, error)]. *)
Inductive result (A : Type) : Type :=
  | Ok (a : A)
  | Err (msg : string).
Arguments Ok {A} a.
Arguments Err {A} msg.

(** [len(s)] *)
Definition len {A} (s : list A) : Z := Z.of_nat (length s).

(** [s[i]], with the run-time bounds check. *)
Definition index {A} (s : list A) (i : Z) : go A :=
  if (i <? 0) || (len s <=? i) then Panics "index out of range"
  else match s !! Z.to_nat i with
       | Some x => Returns x
       | None => Panics "index out of range"
       end.

(** [s[:hi]] *)
Definition slice_to {A} (s : list A) (hi : Z) : go (list A) :=
  if (hi <? 0) || (len s <? hi) then Panics "slice bounds out of range"
  else Returns (take (Z.to_nat hi) s).

(** [s[lo:]] *)
Definition slice_from {A} (s : list A) (lo : Z) : go (list A) :=
  if (lo <? 0) || (len s <? lo) then Panics "slice bounds out of range"
  else Returns (drop (Z.to_nat lo) s).

(** [s[i] = x], with the run-time bounds check. *)
Definition store {A} (s : list A) (i : Z) (x : A) : go (list A) :=
  if (i <? 0) || (len s <=? i) then Panics "index out of range"
  else Returns (<[Z.to_nat i := x]> s).

(** [int(u)] for [u : uint]: reinterpretation at 64 bits. *)
Definition int_of_uint (u : N) : Z :=
  let v := Z.of_N u mod 2 ^ 64 in
  if v <? 2 ^ 63 then v else v - 2 ^ 64.

(** [uint64(i)] for [i : int] or [i : uint]. *)
Definition uint64_of_int (i : Z) : Z := i mod 2 ^ 64.

(** Arithmetic on [int] wraps at 64 bits. *)
Definition wrap_int (z : Z) : Z := (z + 2 ^ 63) mod 2 ^ 64 - 2 ^ 63.

(** [a % b] on [int]: the remainder of the truncated division; a zero
    divisor panics. *)
Definition int_rem (a b : Z) : go Z :=
  if b =? 0 then Panics "integer divide by zero"
  else Returns (wrap_int (Z.rem a b)).

End goruntime.

Import goruntime.

(** ** Package [strings] (the part the parser uses) *)

Module gostrings.

(** [strings.SplitN(s, sep, n)] for a non-empty [sep] and [n > 0]: at
    most [n] pieces, the last one being the unsplit remainder.  [pieces]
    counts the separators that may still be consumed, [n - 1]. *)
Fixpoint split_upto (pieces : nat) (s sep : string) : list string :=
  match pieces with
  | O => [s]
  | S k =>
      match String.index 0 sep s with
      | None => [s]
      | Some m =>
          String.substring 0 m s
            :: split_upto k
                 (String.substring (m + String.length sep)
                    (String.length s - (m + String.length sep)) s)
                 sep
      end
  end.

Definition SplitN (s sep : string) (n : nat) : list string :=
  match n with
  | O => []
  | S k => split_upto k s sep
  end.

End gostrings.

(** ** Package [system] *)

Module system.

(** *** Dependencies and configurations *)

(** The declaration of [Dependency] is not in the sources at hand; its
    fields are those of the literals [Dependency{head, relation,
    dependant}] and of the selectors [.Head] and [.Relation] that the
    sources use. *)
Record Dependency : Type := mkDependency {
  Head : N;
  Relation : string;
  Dependent : N
}.

#[global] Instance Dependency_eq_dec : EqDecision Dependency.
Proof. solve_decision. Defined.

#[global] Instance Dependency_countable : Countable Dependency.
Proof.
  refine (inj_countable'
            (fun d => (Head d, Relation d, Dependent d))
            (fun p => mkDependency p.1.1 p.1.2 p.2) _).
  by intros [].
Defined.

(** [DependencySet] is [map[Dependency]interface{}]: a set. *)
Abbreviation DependencySet := (gset Dependency).

(** The zero value of [Dependency], which a Go map yields for an absent
    key. *)
Definition zeroDependency : Dependency := mkDependency 0 "" 0.

(** Modelled from the spec: the declaration of [Configuration] is not in
    the sources at hand.  [Tokens], [Tags], [Features], [Stack] and
    [Buffer] are the fields that the parser, the oracle and the feature
    addresses read and write; [Features] holds, per token, a possibly nil
    pointer to the token's feature map.  [Arcs] is the set of
    dependencies of the specification's data model. *)
Record Configuration : Type := mkConfiguration {
  Tokens : list string;
  Tags : list string;
  Features : list (option (gmap string string));
  Stack : list N;
  Buffer : list N;
  Arcs : DependencySet
}.

(** Modelled from the spec: [Configuration.AddDependency] is declared in
    a file that is not part of the sources at hand.  The spec has it
    insert the dependency into the arc set; the stack and the buffer are
    left alone. *)
Definition AddDependency (d : Dependency) (c : Configuration) : Configuration :=
  mkConfiguration (Tokens c) (Tags c) (Features c) (Stack c) (Buffer c)
    ({[d]} ∪ Arcs c).

(** Modelled from the spec: [Configuration.Dependencies], likewise absent
    from the sources, returns the accumulated arc set. *)
Definition Dependencies (c : Configuration) : DependencySet := Arcs c.

Definition setStack (s : list N) (c : Configuration) : Configuration :=
  mkConfiguration (Tokens c) (Tags c) (Features c) s (Buffer c) (Arcs c).

Definition setBuffer (b : list N) (c : Configuration) : Configuration :=
  mkConfiguration (Tokens c) (Tags c) (Features c) (Stack c) b (Arcs c).

(** *** Transitions of the arc-standard system *)

Inductive Transition : Type :=
  | asShift
  | asLeftArc (relation : string)
  | asRightArc (relation : string).

#[global] Instance Transition_eq_dec : EqDecision Transition.
Proof. solve_decision. Defined.

#[global] Instance Transition_countable : Countable Transition.
Proof.
  refine (inj_countable'
            (fun t => match t with
                      | asShift => inl ()
                      | asLeftArc r => inr (inl r)
                      | asRightArc r => inr (inr r)
                      end)
            (fun s => match s with
                      | inl _ => asShift
                      | inr (inl r) => asLeftArc r
                      | inr (inr r) => asRightArc r
                      end) _).
  by intros [].
Defined.

(** [TransitionSet] is [map[Transition]interface{}]: a set. *)
Abbreviation TransitionSet := (gset Transition).

Definition asLeftArc_IsPossible (l : string) (c : Configuration) : bool :=
  let stackSize := len (Stack c) in
  negb (len (Stack c) =? 0) && negb (len (Buffer c) =? 0) &&
  match index (Stack c) (stackSize - 1) with
  | Returns top => negb (top =? 0)%N
  | Panics _ => false (* not reached: the stack is not empty here *)
  end.

Definition asLeftArc_Apply (l : string) (c : Configuration) : go Configuration :=
  let stackSize := len (Stack c) in
  head ← index (Buffer c) 0;
  dependant ← index (Stack c) (stackSize - 1);
  let dependency := mkDependency head l dependant in
  let c := AddDependency dependency c in
  stack ← slice_to (Stack c) (stackSize - 1);
  Returns (setStack stack c).

Definition asRightArc_IsPossible (r : string) (c : Configuration) : bool :=
  negb (len (Stack c) =? 0) && negb (len (Buffer c) =? 0).

Definition asRightArc_Apply (r : string) (c : Configuration) : go Configuration :=
  let stackSize := len (Stack c) in
  dependant ← index (Buffer c) 0;
  head ← index (Stack c) (stackSize - 1);
  let dependency := mkDependency head r dependant in
  let c := AddDependency dependency c in
  stack ← slice_to (Stack c) (stackSize - 1);
  let c := setStack stack c in
  buffer ← store (Buffer c) 0 head;
  Returns (setBuffer buffer c).

Definition asShift_IsPossible (c : Configuration) : bool :=
  negb (len (Buffer c) =? 0).

Definition asShift_Apply (c : Configuration) : go Configuration :=
  token ← index (Buffer c) 0;
  buffer ← slice_from (Buffer c) 1;
  let c := setBuffer buffer c in
  Returns (setStack (Stack c ++ [token]) c).

(** The [Transition] interface: dispatch on the variant. *)
Definition IsPossible (t : Transition) (c : Configuration) : bool :=
  match t with
  | asShift => asShift_IsPossible c
  | asLeftArc l => asLeftArc_IsPossible l c
  | asRightArc r => asRightArc_IsPossible r c
  end.

Definition Apply (t : Transition) (c : Configuration) : go Configuration :=
  match t with
  | asShift => asShift_Apply c
  | asLeftArc l => asLeftArc_Apply l c
  | asRightArc r => asRightArc_Apply r c
  end.

(** *** The transition system *)

Definition archetypeASShift : Transition := asShift.
Definition archetypeASLeftArc : Transition := asLeftArc "<archetype>".
Definition archetypeASRightArc : Transition := asRightArc "<archetype>".

Record ArcStandard : Type := mkArcStandard {
  archetypeTransitions : TransitionSet
}.

Definition NewArcStandard : ArcStandard :=
  mkArcStandard {[archetypeASShift; archetypeASLeftArc; archetypeASRightArc]}.

Definition ArcStandard_IsTerminal (ts : ArcStandard) (c : Configuration) : bool :=
  len (Buffer c) =? 0.

Definition ArcStandard_PossibleTransitions (ts : ArcStandard)
    (configuration : Configuration) : TransitionSet :=
  filter (fun trans => IsPossible trans configuration = true)
    (archetypeTransitions ts).

(** The [default] branch of the type switch needs a transition of another
    system; in the closed type [Transition] there is none, so the
    function always returns a string and a nil error. *)
Definition ArcStandard_SerializeTransition (ts : ArcStandard) (t : Transition)
    : result string :=
  match t with
  | asLeftArc relation => Ok ("LEFT_ARC " ++ relation)%string
  | asRightArc relation => Ok ("RIGHT_ARC " ++ relation)%string
  | asShift => Ok "SHIFT"%string
  end.

Definition ArcStandard_DeserializeTransition (ts : ArcStandard)
    (transString : string) : result Transition :=
  let parts := gostrings.SplitN transString " " 2 in
  match parts with
  | [] => Err "Empty transition"
  | p0 :: rest =>
      if String.eqb p0 "LEFT_ARC" then
        match rest with
        | [] => Err "Left-Arc transition requires label argument"
        | p1 :: _ => Ok (asLeftArc p1)
        end
      else if String.eqb p0 "RIGHT_ARC" then
        match rest with
        | [] => Err "Right-Arc transition requires label argument"
        | p1 :: _ => Ok (asRightArc p1)
        end
      else if String.eqb p0 "SHIFT" then Ok asShift
      else Err ("Unknown transition: " ++ p0)%string
  end.

(** *** The static oracle *)

Record ArcStandardOracle : Type := mkArcStandardOracle {
  dependentHeadMapping : gmap N Dependency
}.

(** [o.dependentHeadMapping[token]]: a Go map read, which yields the zero
    [Dependency] for a token without an entry. *)
Definition gold (o : ArcStandardOracle) (token : N) : Dependency :=
  default zeroDependency (dependentHeadMapping o !! token).

(** The loop of [neededForAttachment] over the remaining buffer. *)
Fixpoint neededForAttachment_range (o : ArcStandardOracle) (buffer : list N)
    (token : N) : bool :=
  match buffer with
  | [] => false
  | bufToken :: rest =>
      if (Head (gold o bufToken) =? token)%N then true
      else neededForAttachment_range o rest token
  end.

Definition ArcStandardOracle_neededForAttachment (o : ArcStandardOracle)
    (c : Configuration) (token : N) : bool :=
  neededForAttachment_range o (Buffer c) token.

Definition ArcStandardOracle_BestTransition (o : ArcStandardOracle)
    (c : Configuration) : go Transition :=
  let stackSize := len (Stack c) in
  if negb (stackSize =? 0) then
    stackTip ← index (Stack c) (stackSize - 1);
    bufferHead ← index (Buffer c) 0;
    let la := asLeftArc (Relation (gold o stackTip)) in
    if IsPossible la c && (Head (gold o stackTip) =? bufferHead)%N then
      Returns la
    else
      let ra := asRightArc (Relation (gold o bufferHead)) in
      if IsPossible ra c && (Head (gold o bufferHead) =? stackTip)%N &&
         negb (ArcStandardOracle_neededForAttachment o c bufferHead)
      then Returns ra
      else Returns asShift
  else Returns asShift.

(** *** The greedy parser *)

(** The [Guide] interface: one method, [BestTransition]. *)
Definition Guide : Type := Configuration → go Transition.

(** The part of the [TransitionSystem] interface that the parser calls. *)
Record TransitionSystem : Type := mkTransitionSystem {
  IsTerminal : Configuration → bool;
  PossibleTransitions : Configuration → TransitionSet
}.

Definition ArcStandard_system (ts : ArcStandard) : TransitionSystem :=
  mkTransitionSystem (ArcStandard_IsTerminal ts)
    (ArcStandard_PossibleTransitions ts).

Definition NewArcStandardOracle (mapping : gmap N Dependency) : Guide :=
  ArcStandardOracle_BestTransition (mkArcStandardOracle mapping).

Record GreedyParser : Type := NewGreedyParser {
  transitionSystem : TransitionSystem;
  guide : Guide
}.

(** One turn of the loop of [parseConfiguration]:
    [p.guide.BestTransition(c).Apply(c)]. *)
Definition parseStep (p : GreedyParser) (c : Configuration) : go Configuration :=
  t ← guide p c;
  Apply t c.

(** [k] turns of the loop, without the exit test. *)
Fixpoint parseSteps (p : GreedyParser) (k : nat) (c : Configuration)
    : go Configuration :=
  match k with
  | O => Returns c
  | S k' => c' ← parseStep p c; parseSteps p k' c'
  end.

(** [parseConfiguration]: the [for] loop, which Go does not bound, runs
    on [fuel]; [None] is a loop that has not finished within it. *)
Fixpoint GreedyParser_parseConfiguration (fuel : nat) (p : GreedyParser)
    (c : Configuration) : option (go DependencySet) :=
  match fuel with
  | O => None
  | S fuel' =>
      if negb (IsTerminal (transitionSystem p) c) then
        match parseStep p c with
        | Returns c' => GreedyParser_parseConfiguration fuel' p c'
        | Panics msg => Some (Panics msg)
        end
      else Some (Returns (Dependencies c))
  end.

End system.

(** ** Package [features]: addresses into a configuration *)

Module features.

Import system.

(** [type Source int], with its constants. *)
Definition Source : Type := Z.
Definition STACK : Source := 0.
Definition BUFFER : Source := 1.
Definition LDEP : Source := 2.
Definition RDEP : Source := 3.

(** [type Layer int], with its constants. *)
Definition Layer : Type := Z.
Definition TOKEN : Layer := 0.
Definition TAG : Layer := 1.
Definition DEPREL : Layer := 2.
Definition FEATURE : Layer := 3.

Module AddressComponent.
Record t : Type := mk {
  Source : Source;
  Index : N
}.
End AddressComponent.

Module AddressedValue.
Record t : Type := mk {
  Address : list AddressComponent.t;
  Layer : Layer;
  LayerArg : string;
  Value : string
}.
End AddressedValue.

(** *** Hashing an addressed value *)

(** A [hash.Hash] is fed by [Write]; what it has been fed is the
    sequence of the byte slices written so far, and its sum is a
    function of their concatenation. *)
Definition Hash : Type := list (list byte).

Definition Write (p : list byte) (h : Hash) : Hash := h ++ [p].

Definition Hash_stream (h : Hash) : list byte := concat h.

(** Byte [i] of the little-endian form of [v]. *)
Definition byte_at (v : Z) (i : nat) : byte :=
  byte_of_ascii (ascii_of_N (Z.to_N ((v / 2 ^ (8 * Z.of_nat i)) mod 256))).

(** [binary.LittleEndian.PutUint64(buf, v)] on a buffer of 8 bytes. *)
Definition PutUint64 (v : Z) : list byte := map (byte_at v) (seq 0 8).

(** The loop of [appendHash] over the address components. *)
Fixpoint appendHash_range (components : list AddressComponent.t) (hash : Hash)
    : Hash :=
  match components with
  | [] => hash
  | component :: rest =>
      let buf := PutUint64 (uint64_of_int (AddressComponent.Source component)) in
      let hash := Write buf hash in
      let buf :=
        PutUint64 (uint64_of_int (Z.of_N (AddressComponent.Index component))) in
      let hash := Write buf hash in
      appendHash_range rest hash
  end.

Definition appendHash (a : AddressedValue.t) (hash : Hash) : Hash :=
  let hash := appendHash_range (AddressedValue.Address a) hash in
  let buf := PutUint64 (uint64_of_int (AddressedValue.Layer a)) in
  let hash :=
    if AddressedValue.Layer a =? FEATURE
    then Write (list_byte_of_string (AddressedValue.LayerArg a)) hash
    else hash in
  let hash := Write buf hash in
  Write (list_byte_of_string (AddressedValue.Value a)) hash.

(** *** The string form of an addressed value *)

(** [strconv.FormatUint(v, 10)] for [v : uint64]. *)
Definition FormatUint10 (v : Z) : string :=
  NilZero.string_of_uint (N.to_uint (Z.to_N v)).

(** A [bytes.Buffer] is its content; [WriteString] and [WriteByte]
    append to it. *)
Definition WriteString (s : string) (buf : string) : string :=
  (buf ++ s)%string.

Definition WriteByte (b : ascii) (buf : string) : string :=
  (buf ++ String b "")%string.

(** The loop of [appendAddress], from component number [idx] on. *)
Fixpoint appendAddress_range (components : list AddressComponent.t)
    (idx : nat) (buf : string) : string :=
  match components with
  | [] => buf
  | component :: rest =>
      let buf := if negb (idx =? 0)%nat then WriteByte "," buf else buf in
      let buf :=
        WriteString
          (FormatUint10 (uint64_of_int (AddressComponent.Source component)))
          buf in
      let buf := WriteByte "-" buf in
      let buf :=
        WriteString
          (FormatUint10
             (uint64_of_int (Z.of_N (AddressComponent.Index component))))
          buf in
      appendAddress_range rest (S idx) buf
  end.

Definition appendAddress (a : AddressedValue.t) (buf : string) : string :=
  let buf := WriteString "addr(" buf in
  let buf := appendAddress_range (AddressedValue.Address a) 0 buf in
  WriteByte ")" buf.

Definition appendFeature (a : AddressedValue.t) (buf : string) : string :=
  let buf := WriteString "av(" buf in
  let buf := appendAddress a buf in
  let buf := WriteByte "," buf in
  let buf :=
    WriteString (FormatUint10 (uint64_of_int (AddressedValue.Layer a))) buf in
  let buf :=
    if AddressedValue.Layer a =? FEATURE then
      let buf := WriteByte ":" buf in
      WriteString (AddressedValue.LayerArg a) buf
    else buf in
  let buf := WriteString (AddressedValue.Value a) buf in
  WriteByte ")" buf.

(** *** Resolving an addressed value *)

Section ConfigurationQueries.

(** The queries of [Configuration] that [Get] calls and that are
    declared outside the sources at hand.  Each returns [Some] for Go's
    [(value, true)] and [None] for [(_, false)]. *)
Variable LeftmostDependent : Configuration → N → N → option N.
Variable RightmostDependent : Configuration → N → N → option N.
Variable ConfigurationHead : Configuration → N → option Dependency.

(** The loop of [Get] over the address components, from component
    number [idx] on, [token] being the token reached so far.  The result
    [Returns None] is the early [return "", false]. *)
Fixpoint Get_range (c : Configuration) (components : list AddressComponent.t)
    (idx : nat) (token : N) : go (option N) :=
  match components with
  | [] => Returns (Some token)
  | component :: rest =>
      let source := AddressComponent.Source component in
      let k := AddressComponent.Index component in
      if source =? STACK then
        let stackSize := N.of_nat (length (Stack c)) in
        if (stackSize <=? k)%N then Returns None
        else
          token ← index (Stack c) (Z.of_N (stackSize - k - 1));
          Get_range c rest (S idx) token
      else if source =? BUFFER then
        if (N.of_nat (length (Buffer c)) <=? k)%N then Returns None
        else
          token ← index (Buffer c) (Z.of_N k);
          Get_range c rest (S idx) token
      else if source =? LDEP then
        if (idx =? 0)%nat then Panics "LDEP cannot be an initial address component"
        else
          match LeftmostDependent c token k with
          | Some token => Get_range c rest (S idx) token
          | None => Returns None
          end
      else if source =? RDEP then
        if (idx =? 0)%nat then Panics "RDEP cannot be an initial address component"
        else
          match RightmostDependent c token k with
          | Some token => Get_range c rest (S idx) token
          | None => Returns None
          end
      else Panics "Source unimplemented"
  end.

(** [Get]: the pair is Go's [(string, bool)]. *)
Definition Get (a : AddressedValue.t) (c : Configuration) : go (string * bool) :=
  (* [var token uint] starts at zero *)
  r ← Get_range c (AddressedValue.Address a) 0 0%N;
  match r with
  | None => Returns (""%string, false)
  | Some token =>
      let layer := AddressedValue.Layer a in
      if layer =? TOKEN then
        v ← index (Tokens c) (Z.of_N token); Returns (v, true)
      else if layer =? TAG then
        v ← index (Tags c) (Z.of_N token); Returns (v, true)
      else if layer =? DEPREL then
        match ConfigurationHead c token with
        | Some depRel => Returns (Relation depRel, true)
        | None => Returns (""%string, false)
        end
      else if layer =? FEATURE then
        f ← index (Features c) (Z.of_N token);
        match f with
        | None => Returns (""%string, false)
        | Some featuresMap =>
            match featuresMap !! AddressedValue.LayerArg a with
            | Some val => Returns (val, true)
            | None => Returns (""%string, false)
            end
        end
      else Panics "Layer not implemented."
  end.

End ConfigurationQueries.

End features.

(** ** Package [ml]: the hashing SVM guide *)

Module ml.

Import system.

(** [golinear.FeatureValue] *)
Record FeatureValue : Type := mkFeatureValue {
  Index : Z;
  Value : float
}.

(** What the guide uses of a [golinear.Model]: the decision values of a
    feature vector, one per label, and the labels in the model's order. *)
Record Model : Type := mkModel {
  PredictDecisionValuesSlice : list FeatureValue → list float;
  Labels : list Z
}.

(** [featureGenerator] stands for [GenerateHashed] under the guide's hash
    function followed by [Build]; [labelNumberer] for
    [LabelNumberer.Label]. *)
Record HashingSVMGuide : Type := NewHashingSVMGuide {
  model : Model;
  featureGenerator : Configuration → list FeatureValue;
  labelNumberer : Z → Transition;
  maxFeatures : N
}.

(** The body of the loop that introduces the feature bounds. *)
Definition boundFeature (maxFeatures : N) (fv : FeatureValue) : go FeatureValue :=
  let hash := Index fv in
  let sign :=
    if Z.land hash 0x80000000 =? 0x80000000 then (-1)%float else 1%float in
  r ← int_rem (Z.land hash 0x7fffffff) (int_of_uint maxFeatures);
  Returns (mkFeatureValue (wrap_int (r + 1)) (Value fv * sign)%float).

Fixpoint boundFeatures (maxFeatures : N) (x : list FeatureValue)
    : go (list FeatureValue) :=
  match x with
  | [] => Returns []
  | fv :: rest =>
      fv' ← boundFeature maxFeatures fv;
      rest' ← boundFeatures maxFeatures rest;
      Returns (fv' :: rest')
  end.

(** The loop over the decision values, from index [idx] on.  [bestLabel]
    is [None] while it is the nil interface. *)
Fixpoint bestLabel_range (g : HashingSVMGuide) (configuration : Configuration)
    (labels : list Z) (idx : nat) (values : list float)
    (bestValue : float) (bestLabel : option Transition)
    : go (option Transition) :=
  match values with
  | [] => Returns bestLabel
  | value :: rest =>
      if (value <? bestValue)%float then
        bestLabel_range g configuration labels (S idx) rest bestValue bestLabel
      else
        numLabel ← index labels (Z.of_nat idx);
        let label := labelNumberer g numLabel in
        if negb (IsPossible label configuration) then
          bestLabel_range g configuration labels (S idx) rest bestValue bestLabel
        else
          bestLabel_range g configuration labels (S idx) rest value (Some label)
  end.

Definition HashingSVMGuide_BestTransition (g : HashingSVMGuide)
    (configuration : Configuration) : go (option Transition) :=
  let x := featureGenerator g configuration in
  x ← boundFeatures (maxFeatures g) x;
  let values := PredictDecisionValuesSlice (model g) x in
  let bestValue := neg_infinity in
  let labels := Labels (model g) in
  bestLabel_range g configuration labels 0 values bestValue None.

End ml.

(** * Specification-side definitions

    The statements of the specification that are compared with the code,
    in its own words, and the examples it gives. *)

Module system_spec.

Import system.

(** The measure of progress of the parser. *)
Definition measure (c : Configuration) : nat :=
  2 * length (Buffer c) + length (Stack c).

(** The gold tree of the sentence "A B C" of the specification:
    (ROOT, root, B), (B, nsubj, A), (B, obj, C). *)
Definition goldABC : ArcStandardOracle :=
  mkArcStandardOracle
    (<[2%N := mkDependency 0 "root" 2]>
       (<[1%N := mkDependency 2 "nsubj" 1]>
          (<[3%N := mkDependency 2 "obj" 3]> ∅))).

(** The tokens still at work: the stack, bottom first, then the buffer. *)
Definition working_set (c : Configuration) : list N := Stack c ++ Buffer c.

(** No token has two heads among the arcs. *)
Definition single_headed (arcs : DependencySet) : Prop :=
  ∀ d1 d2, d1 ∈ arcs → d2 ∈ arcs → Dependent d1 = Dependent d2 → d1 = d2.

(** The tokens at work are pairwise distinct, a token that has a head
    is no longer at work, and no token has two heads. *)
Definition attached_once (c : Configuration) : Prop :=
  NoDup (working_set c)
  ∧ (∀ d, d ∈ Arcs c → Dependent d ∉ working_set c)
  ∧ single_headed (Arcs c).


(** A guide that answers LeftArc everywhere, legal or not. *)
Definition always_left : Guide := fun _ => Returns (asLeftArc "x").

(** The string has no space. *)
Definition spaceless (s : string) : Prop := String.index 0 " " s = None.

End system_spec.

Module features_spec.

Import system features.

(** The writes of the address path: per component the source tag, then
    the index. *)
Definition address_writes (components : list AddressComponent.t) : list (list byte) :=
  flat_map
    (fun component =>
       [PutUint64 (uint64_of_int (AddressComponent.Source component));
        PutUint64 (uint64_of_int (Z.of_N (AddressComponent.Index component)))])
    components.

(** The order of the writes in the words of the specification: the
    address path, the layer tag, the feature argument if the layer is
    FEATURE, the resolved value. *)
Definition appendHash_as_specified (a : AddressedValue.t) (hash : Hash) : Hash :=
  hash ++ address_writes (AddressedValue.Address a)
       ++ [PutUint64 (uint64_of_int (AddressedValue.Layer a))]
       ++ (if AddressedValue.Layer a =? FEATURE
           then [list_byte_of_string (AddressedValue.LayerArg a)]
           else [])
       ++ [list_byte_of_string (AddressedValue.Value a)].

(** The feature "case" of the token on top of the stack, resolved to
    "nom". *)
Definition stack0_case_nom : AddressedValue.t :=
  AddressedValue.mk [AddressComponent.mk STACK 0] FEATURE "case" "nom".

(** A configuration with six tokens, Stack = [2, 5] and Buffer = [6]. *)
Definition stack_2_5 : Configuration :=
  mkConfiguration ["ROOT"; "a"; "b"; "c"; "d"; "e"; "f"]%string [] []
    [2; 5]%N [6]%N ∅.

(** The text of an address component, [source-index], and of an address
    path, the components separated by commas. *)
Definition component_text (component : AddressComponent.t) : string :=
  (FormatUint10 (uint64_of_int (AddressComponent.Source component)) ++ "-"
   ++ FormatUint10 (uint64_of_int (Z.of_N (AddressComponent.Index component))))%string.

Definition address_text (components : list AddressComponent.t) : string :=
  String.concat "," (map component_text components).

(** The number that a little-endian sequence of bytes stands for. *)
Definition le_value (bytes : list byte) : Z :=
  foldr (fun b acc => Z.of_N (N_of_ascii (ascii_of_byte b)) + 256 * acc) 0 bytes.

(** The value fits a Go [int]; the index fits a Go [uint]. *)
Definition is_int (z : Z) : Prop := - 2 ^ 63 <= z < 2 ^ 63.

Definition is_uint (n : N) : Prop := (n < 2 ^ 64)%N.

End features_spec.

Module ml_spec.

Import system ml.

(** The bounded feature in the words of the specification: the index is
    the hash without its sign bit ([h & 0x7fffffff], which for a hash of
    32 bits is [h] with bit 31 cleared), modulo the bound, plus one; the
    value is negated exactly when bit 31 of the hash is set. *)
Definition boundFeature_as_specified (M : N) (fv : FeatureValue) : FeatureValue :=
  mkFeatureValue (Z.land (Index fv) 0x7fffffff mod Z.of_N M + 1)
    (Value fv * (if Z.testbit (Index fv) 31 then (-1) else 1))%float.

Section LegalMaximum.

Variable g : HashingSVMGuide.
Variable c : Configuration.
Variable labels : list Z.

(** The label at index [j] of the model's enumeration is legal in [c]. *)
Definition legal_at (j : nat) : Prop :=
  ∃ nj, labels !! j = Some nj ∧ IsPossible (labelNumberer g nj) c = true.

(** Index [i] holds a legal label whose decision value [v] no legal
    label exceeds. *)
Definition legal_maximum (values : list float) (i : nat) (n : Z) (v : float)
    : Prop :=
  values !! i = Some v ∧ labels !! i = Some n
  ∧ IsPossible (labelNumberer g n) c = true
  ∧ ∀ j vj, values !! j = Some vj → legal_at j → (v <? vj)%float = false.

(** [i] is the first index with a legal maximum: the legal labels before
    it are strictly below. *)
Definition first_legal_maximum (values : list float) (i : nat) (n : Z)
    (v : float) : Prop :=
  legal_maximum values i n v
  ∧ ∀ j vj, (j < i)%nat → values !! j = Some vj → legal_at j →
            (vj <? v)%float = true.

(** [i] is the last index with a legal maximum: the legal labels after
    it are strictly below. *)
Definition last_legal_maximum (values : list float) (i : nat) (n : Z)
    (v : float) : Prop :=
  legal_maximum values i n v
  ∧ ∀ j vj, (i < j)%nat → values !! j = Some vj → legal_at j →
            (vj <? v)%float = true.

End LegalMaximum.

(** The tie-break in the words of the specification: among the legal
    labels that share the maximum decision value, the guide returns the
    first one of the model's enumeration. *)
Definition first_seen_wins (g : HashingSVMGuide) (c : Configuration) : Prop :=
  ∀ x i n v,
    boundFeatures (maxFeatures g) (featureGenerator g c) = Returns x →
    first_legal_maximum g c (Labels (model g))
      (PredictDecisionValuesSlice (model g) x) i n v →
    HashingSVMGuide_BestTransition g c = Returns (Some (labelNumberer g n)).

(** A model with two labels, Shift and RightArc(obj), in this order, and
    the same decision value for both. *)
Definition tied_guide : HashingSVMGuide :=
  NewHashingSVMGuide
    (mkModel (fun _ => [0.5; 0.5]%float) [0; 1])
    (fun _ => [])
    (fun n => if n =? 0 then asShift else asRightArc "obj")
    1000.

(** A configuration in which both labels are legal. *)
Definition tied_configuration : Configuration :=
  mkConfiguration [] [] [] [1]%N [2]%N ∅.

End ml_spec.

(** * Properties *)

(** ** Facts about the run-time model *)

Module goruntime_facts.

Lemma len_app {A} (s t : list A) : len (s ++ t) = len s + len t.
Proof. unfold len. rewrite length_app. lia. Qed.

Lemma len_cons {A} (x : A) (s : list A) : len (x :: s) = len s + 1.
Proof. unfold len. simpl. lia. Qed.

Lemma len_nonneg {A} (s : list A) : 0 <= len s.
Proof. unfold len. lia. Qed.

Lemma len_zero {A} (s : list A) : len s = 0 ↔ s = [].
Proof.
  unfold len. split.
  - destruct s; [done | simpl; lia].
  - by intros ->.
Qed.

Lemma index_lookup {A} (s : list A) (i : nat) (x : A) :
  s !! i = Some x → index s (Z.of_nat i) = Returns x.
Proof.
  intros Hx. unfold index, len.
  pose proof (lookup_lt_Some _ _ _ Hx) as Hlt.
  destruct (Z.of_nat i <? 0) eqn:H0; [lia |].
  destruct (Z.of_nat (length s) <=? Z.of_nat i) eqn:H1; [lia |].
  simpl. by rewrite Nat2Z.id, Hx.
Qed.

Lemma index_head {A} (x : A) (s : list A) : index (x :: s) 0 = Returns x.
Proof. by apply (index_lookup (x :: s) 0). Qed.

Lemma index_last {A} (s : list A) (x : A) :
  index (s ++ [x]) (len (s ++ [x]) - 1) = Returns x.
Proof.
  replace (len (s ++ [x]) - 1) with (Z.of_nat (length s)).
  - apply index_lookup. by rewrite list_lookup_middle.
  - rewrite len_app. unfold len. simpl. lia.
Qed.

Lemma slice_to_last {A} (s : list A) (x : A) :
  slice_to (s ++ [x]) (len (s ++ [x]) - 1) = Returns s.
Proof.
  unfold slice_to. rewrite len_app.
  replace (len s + len [x] - 1) with (len s) by (unfold len; simpl; lia).
  pose proof (len_nonneg s). pose proof (len_nonneg [x]).
  destruct (Z.ltb_spec (len s) 0); [lia |].
  destruct (Z.ltb_spec (len s + len [x]) (len s)); [lia |].
  simpl. unfold len. rewrite Nat2Z.id. by rewrite take_app_length.
Qed.

Lemma slice_from_1 {A} (x : A) (s : list A) : slice_from (x :: s) 1 = Returns s.
Proof.
  unfold slice_from. rewrite len_cons. pose proof (len_nonneg s).
  destruct (len s + 1 <? 1) eqn:H1; [lia |]. done.
Qed.

Lemma store_head {A} (x y : A) (s : list A) : store (x :: s) 0 y = Returns (y :: s).
Proof.
  unfold store. rewrite len_cons. pose proof (len_nonneg s).
  destruct (len s + 1 <=? 0) eqn:H1; [lia |]. done.
Qed.

Lemma nonempty_snoc {A} (s : list A) : s ≠ [] → ∃ s' x, s = s' ++ [x].
Proof.
  induction s as [| a s _] using rev_ind; [done | eauto].
Qed.

End goruntime_facts.

(** ** The arc-standard system, the oracle and the parser *)

Module system_theory.

Import system system_spec goruntime_facts.

(** Runs the slice operations of a transition on a stack of the form
    [s ++ [x]] and a buffer of the form [x :: s]. *)
Ltac run_slices :=
  repeat (simpl;
          rewrite ?index_head, ?index_last, ?slice_to_last, ?slice_from_1,
            ?store_head).

(** *** Effect of the transitions *)

Lemma asShift_Apply_cons (c : Configuration) (front : N) (buffer' : list N) :
  Buffer c = front :: buffer' →
  asShift_Apply c =
    Returns (mkConfiguration (Tokens c) (Tags c) (Features c)
               (Stack c ++ [front]) buffer' (Arcs c)).
Proof.
  intros Hb. unfold asShift_Apply. rewrite Hb. by run_slices.
Qed.

Lemma asLeftArc_Apply_snoc (rel : string) (c : Configuration)
    (stack' : list N) (top front : N) (buffer' : list N) :
  Stack c = stack' ++ [top] → Buffer c = front :: buffer' →
  asLeftArc_Apply rel c =
    Returns (mkConfiguration (Tokens c) (Tags c) (Features c)
               stack' (front :: buffer')
               ({[mkDependency front rel top]} ∪ Arcs c)).
Proof.
  intros Hs Hb. unfold asLeftArc_Apply. simpl. rewrite Hs, Hb.
  run_slices. unfold setStack. simpl. by rewrite Hb.
Qed.

Lemma asRightArc_Apply_snoc (rel : string) (c : Configuration)
    (stack' : list N) (top front : N) (buffer' : list N) :
  Stack c = stack' ++ [top] → Buffer c = front :: buffer' →
  asRightArc_Apply rel c =
    Returns (mkConfiguration (Tokens c) (Tags c) (Features c)
               stack' (top :: buffer')
               ({[mkDependency top rel front]} ∪ Arcs c)).
Proof.
  intros Hs Hb. unfold asRightArc_Apply. simpl. rewrite Hs, Hb.
  by run_slices.
Qed.

(** C1. Applied to a configuration whose stack ends in [top] and whose
    buffer starts with [front], RightArc(rel) returns the configuration
    with the dependency (head [top], [rel], dependent [front]) added to
    the arcs, the stack without its top, and the buffer with its front
    element replaced by [top]; the buffer keeps its length. *)
Theorem asRightArc_Apply_effect (rel : string) (c : Configuration)
    (stack' : list N) (top front : N) (buffer' : list N) :
  Stack c = stack' ++ [top] → Buffer c = front :: buffer' →
  Apply (asRightArc rel) c =
    Returns (mkConfiguration (Tokens c) (Tags c) (Features c)
               stack' (top :: buffer')
               ({[mkDependency top rel front]} ∪ Arcs c))
  ∧ length (top :: buffer') = length (Buffer c).
Proof.
  intros Hs Hb. split; [| by rewrite Hb].
  by apply asRightArc_Apply_snoc.
Qed.

(** The example of the specification: Stack = [.., 5, 7], Buffer = [9, ..],
    relation "obj". *)
Lemma asRightArc_Apply_effect_witness :
  Apply (asRightArc "obj")
    (mkConfiguration [] [] [] [2; 5; 7]%N [9; 10]%N ∅) =
    Returns (mkConfiguration [] [] [] [2; 5]%N [7; 10]%N
               ({[mkDependency 7 "obj" 9]} ∪ ∅))
  ∧ length [7; 10]%N = length [9; 10]%N.
Proof.
  apply (asRightArc_Apply_effect "obj"
           (mkConfiguration [] [] [] [2; 5; 7]%N [9; 10]%N ∅)
           [2; 5]%N 7%N 9%N [10]%N); reflexivity.
Defined.

(** *** Text form of the transitions *)

Lemma substring_all (s : string) : String.substring 0 (String.length s) s = s.
Proof. induction s as [| a s IH]; simpl; [done | by rewrite IH]. Qed.

Lemma SplitN_LEFT_ARC (rel : string) :
  gostrings.SplitN ("LEFT_ARC " ++ rel) " " 2 = ["LEFT_ARC"%string; rel].
Proof.
  (* [String.prefix] recurses on the string searched: split on [rel] *)
  destruct rel as [| a rel]; [reflexivity |].
  transitivity
    ["LEFT_ARC"%string;
     String.substring 0 (String.length (String a rel)) (String a rel)];
    [reflexivity | by rewrite substring_all].
Qed.

Lemma SplitN_RIGHT_ARC (rel : string) :
  gostrings.SplitN ("RIGHT_ARC " ++ rel) " " 2 = ["RIGHT_ARC"%string; rel].
Proof.
  (* [String.prefix] recurses on the string searched: split on [rel] *)
  destruct rel as [| a rel]; [reflexivity |].
  transitivity
    ["RIGHT_ARC"%string;
     String.substring 0 (String.length (String a rel)) (String a rel)];
    [reflexivity | by rewrite substring_all].
Qed.

(** C5. Every arc-standard transition is serialized without error, and
    deserializing the string obtained succeeds and gives the transition
    back, whatever the relation string. *)
Theorem serialize_deserialize_roundtrip (ts : ArcStandard) (t : Transition) :
  ∃ s : string,
    ArcStandard_SerializeTransition ts t = Ok s ∧
    ArcStandard_DeserializeTransition ts s = Ok t.
Proof.
  destruct t as [| rel | rel]; simpl.
  - exists "SHIFT"%string. split; reflexivity.
  - exists ("LEFT_ARC " ++ rel)%string. split; [reflexivity |].
    unfold ArcStandard_DeserializeTransition.
    by rewrite SplitN_LEFT_ARC.
  - exists ("RIGHT_ARC " ++ rel)%string. split; [reflexivity |].
    unfold ArcStandard_DeserializeTransition.
    by rewrite SplitN_RIGHT_ARC.
Qed.

(** *** Legal transitions *)

Lemma asShift_IsPossible_iff (c : Configuration) :
  asShift_IsPossible c = true ↔ Buffer c ≠ [].
Proof.
  unfold asShift_IsPossible. rewrite negb_true_iff, Z.eqb_neq.
  by rewrite len_zero.
Qed.

Lemma IsTerminal_iff (ts : ArcStandard) (c : Configuration) :
  ArcStandard_IsTerminal ts c = true ↔ Buffer c = [].
Proof. unfold ArcStandard_IsTerminal. by rewrite Z.eqb_eq, len_zero. Qed.

Lemma IsTerminal_false_iff (ts : ArcStandard) (c : Configuration) :
  ArcStandard_IsTerminal ts c = false ↔ Buffer c ≠ [].
Proof. unfold ArcStandard_IsTerminal. by rewrite Z.eqb_neq, len_zero. Qed.

(** C6. Shift is legal exactly when the buffer is not empty, and a
    configuration is terminal exactly when its buffer is empty, both in
    every configuration; so in a configuration that is not terminal the
    set of possible transitions holds Shift and is not empty. *)
Theorem PossibleTransitions_nonempty (c : Configuration) :
  (IsPossible asShift c = true ↔ Buffer c ≠ [])
  ∧ (ArcStandard_IsTerminal NewArcStandard c = true ↔ Buffer c = [])
  ∧ (ArcStandard_IsTerminal NewArcStandard c = false →
     asShift ∈ ArcStandard_PossibleTransitions NewArcStandard c
     ∧ ArcStandard_PossibleTransitions NewArcStandard c ≠ ∅).
Proof.
  split; [apply asShift_IsPossible_iff |].
  split; [apply IsTerminal_iff |].
  intros Hnt.
  assert (asShift ∈ ArcStandard_PossibleTransitions NewArcStandard c) as Hin.
  { unfold ArcStandard_PossibleTransitions. apply elem_of_filter. split.
    - simpl. apply asShift_IsPossible_iff.
      by apply (IsTerminal_false_iff NewArcStandard).
    - simpl. unfold archetypeASShift.
      apply elem_of_union_l, elem_of_union_l. by apply elem_of_singleton. }
  split; [done |].
  intros Hempty. rewrite Hempty in Hin.
  apply not_elem_of_empty in Hin. destruct Hin.
Qed.

Lemma PossibleTransitions_nonempty_witness :
  let c := mkConfiguration [] [] [] [] [0; 1]%N ∅ in
  (IsPossible asShift c = true ↔ Buffer c ≠ [])
  ∧ (ArcStandard_IsTerminal NewArcStandard c = true ↔ Buffer c = [])
  ∧ asShift ∈ ArcStandard_PossibleTransitions NewArcStandard c
  ∧ ArcStandard_PossibleTransitions NewArcStandard c ≠ ∅.
Proof.
  intros c.
  destruct (PossibleTransitions_nonempty c) as (Hshift & Hterm & Hposs).
  split; [exact Hshift |]. split; [exact Hterm |].
  apply Hposs. reflexivity.
Defined.

(** *** The static oracle *)

Lemma neededForAttachment_range_false (o : ArcStandardOracle)
    (buffer : list N) (token : N) :
  neededForAttachment_range o buffer token = false ↔
  ∀ t, t ∈ buffer → Head (gold o t) ≠ token.
Proof.
  induction buffer as [| bufToken rest IH]; simpl.
  - split; [| done]. intros _ t Ht. by apply elem_of_nil in Ht.
  - destruct (N.eqb_spec (Head (gold o bufToken)) token) as [Heq | Hne].
    + split; [done |]. intros H. exfalso. apply (H bufToken); [left | done].
    + rewrite IH. split.
      * intros H t Ht. apply elem_of_cons in Ht as [-> | Ht]; [done | by apply H].
      * intros H t Ht. apply H. by right.
Qed.

Lemma BestTransition_empty_stack (o : ArcStandardOracle) (c : Configuration) :
  Stack c = [] → ArcStandardOracle_BestTransition o c = Returns asShift.
Proof. intros Hs. unfold ArcStandardOracle_BestTransition. by rewrite Hs. Qed.

(** The oracle on a configuration with a stack top [s] and a buffer
    front [b]: the two guarded returns, then the fallback. *)
Lemma BestTransition_top_front (o : ArcStandardOracle) (c : Configuration)
    (stack' : list N) (s b : N) (buffer' : list N) :
  Stack c = stack' ++ [s] → Buffer c = b :: buffer' →
  ArcStandardOracle_BestTransition o c =
    Returns
      (if IsPossible (asLeftArc (Relation (gold o s))) c &&
          (Head (gold o s) =? b)%N
       then asLeftArc (Relation (gold o s))
       else if IsPossible (asRightArc (Relation (gold o b))) c &&
               (Head (gold o b) =? s)%N &&
               negb (neededForAttachment_range o (Buffer c) b)
            then asRightArc (Relation (gold o b))
            else asShift).
Proof.
  intros Hs Hb. unfold ArcStandardOracle_BestTransition.
  assert ((len (Stack c) =? 0) = false) as ->.
  { apply Z.eqb_neq. rewrite len_zero, Hs. by destruct stack'. }
  cbn [negb]. rewrite Hs at 1 2. rewrite index_last. cbn [mbind go_bind].
  rewrite Hb at 1. rewrite index_head. cbn [mbind go_bind].
  unfold ArcStandardOracle_neededForAttachment.
  repeat case_match; done.
Qed.

(** C2. The precedence of the oracle.  On an empty stack it returns
    Shift.  On a stack with top [s] and a buffer with front [b]: if
    LeftArc is legal and the gold head of [s] is [b], it returns LeftArc
    with the gold relation of [s]; otherwise, if RightArc is legal, the
    gold head of [b] is [s] and no token of the buffer has [b] as its
    gold head, it returns RightArc with the gold relation of [b];
    otherwise it returns Shift. *)
Theorem oracle_precedence (o : ArcStandardOracle) (c : Configuration) :
  (Stack c = [] → ArcStandardOracle_BestTransition o c = Returns asShift)
  ∧ (∀ (stack' : list N) (s b : N) (buffer' : list N),
       Stack c = stack' ++ [s] → Buffer c = b :: buffer' →
       let leftArc :=
         IsPossible (asLeftArc (Relation (gold o s))) c = true
         ∧ Head (gold o s) = b in
       let rightArc :=
         IsPossible (asRightArc (Relation (gold o b))) c = true
         ∧ Head (gold o b) = s
         ∧ (∀ t, t ∈ Buffer c → Head (gold o t) ≠ b) in
       (leftArc →
        ArcStandardOracle_BestTransition o c =
          Returns (asLeftArc (Relation (gold o s))))
       ∧ (¬ leftArc → rightArc →
          ArcStandardOracle_BestTransition o c =
            Returns (asRightArc (Relation (gold o b))))
       ∧ (¬ leftArc → ¬ rightArc →
          ArcStandardOracle_BestTransition o c = Returns asShift)).
Proof.
  split; [apply BestTransition_empty_stack |].
  intros stack' s b buffer' Hs Hb leftArc rightArc.
  rewrite (BestTransition_top_front o c stack' s b buffer' Hs Hb).
  assert (IsPossible (asLeftArc (Relation (gold o s))) c &&
          (Head (gold o s) =? b)%N = true ↔ leftArc) as Hla.
  { unfold leftArc. by rewrite andb_true_iff, N.eqb_eq. }
  assert (IsPossible (asRightArc (Relation (gold o b))) c &&
          (Head (gold o b) =? s)%N &&
          negb (neededForAttachment_range o (Buffer c) b) = true
          ↔ rightArc) as Hra.
  { unfold rightArc.
    rewrite !andb_true_iff, N.eqb_eq, negb_true_iff.
    rewrite neededForAttachment_range_false. tauto. }
  destruct (IsPossible (asLeftArc (Relation (gold o s))) c &&
            (Head (gold o s) =? b)%N) eqn:Ela.
  - split; [done |]. split; intros Hn; exfalso; apply Hn, Hla; done.
  - assert (¬ leftArc) as Hnla by (intros H; apply Hla in H; done).
    split; [done |].
    destruct (IsPossible (asRightArc (Relation (gold o b))) c &&
              (Head (gold o b) =? s)%N &&
              negb (neededForAttachment_range o (Buffer c) b)) eqn:Era.
    + split; [done |]. intros _ Hn. exfalso. apply Hn, Hra. done.
    + split; [| done]. intros _ H. apply Hra in H. done.
Qed.

Lemma oracle_precedence_witness :
  ArcStandardOracle_BestTransition goldABC
    (mkConfiguration [] [] [] [0; 1]%N [2; 3]%N ∅) =
  Returns (asLeftArc "nsubj").
Proof.
  apply (proj1 (proj2 (oracle_precedence goldABC
                         (mkConfiguration [] [] [] [0; 1]%N [2; 3]%N ∅))
                 [0%N] 1%N 2%N [3%N] eq_refl eq_refl)).
  split; reflexivity.
Defined.

(** C10. In a configuration whose buffer is not empty the oracle returns
    a transition, and that transition is legal there. *)
Theorem oracle_transition_legal (o : ArcStandardOracle) (c : Configuration) :
  Buffer c ≠ [] →
  ∃ t : Transition,
    ArcStandardOracle_BestTransition o c = Returns t ∧ IsPossible t c = true.
Proof.
  intros Hb.
  destruct (Buffer c) as [| b buffer'] eqn:Ebuf; [done |].
  destruct (decide (Stack c = [])) as [Hs | Hs].
  - exists asShift. split; [by apply BestTransition_empty_stack |].
    simpl. apply asShift_IsPossible_iff. by rewrite Ebuf.
  - apply nonempty_snoc in Hs as (stack' & s & Hs).
    rewrite (BestTransition_top_front o c stack' s b buffer' Hs Ebuf).
    eexists. split; [reflexivity |].
    destruct (IsPossible (asLeftArc (Relation (gold o s))) c) eqn:Ela;
      cbn [andb].
    + destruct (Head (gold o s) =? b)%N; [done |].
      destruct (IsPossible (asRightArc (Relation (gold o b))) c) eqn:Era;
        cbn [andb].
      * destruct ((Head (gold o b) =? s)%N &&
                  negb (neededForAttachment_range o (Buffer c) b));
          [done |].
        simpl. apply asShift_IsPossible_iff. by rewrite Ebuf.
      * simpl. apply asShift_IsPossible_iff. by rewrite Ebuf.
    + destruct (IsPossible (asRightArc (Relation (gold o b))) c) eqn:Era;
        cbn [andb].
      * destruct ((Head (gold o b) =? s)%N &&
                  negb (neededForAttachment_range o (Buffer c) b));
          [done |].
        simpl. apply asShift_IsPossible_iff. by rewrite Ebuf.
      * simpl. apply asShift_IsPossible_iff. by rewrite Ebuf.
Qed.

Lemma oracle_transition_legal_witness :
  ∃ t : Transition,
    ArcStandardOracle_BestTransition goldABC
      (mkConfiguration [] [] [] [0; 2]%N [3]%N ∅) = Returns t
    ∧ IsPossible t (mkConfiguration [] [] [] [0; 2]%N [3]%N ∅) = true.
Proof.
  apply (oracle_transition_legal goldABC
           (mkConfiguration [] [] [] [0; 2]%N [3]%N ∅)).
  simpl. discriminate.
Defined.

(** *** The greedy parser *)

Lemma asRightArc_IsPossible_shape (r : string) (c : Configuration) :
  asRightArc_IsPossible r c = true →
  ∃ stack' top front buffer',
    Stack c = stack' ++ [top] ∧ Buffer c = front :: buffer'.
Proof.
  unfold asRightArc_IsPossible.
  rewrite andb_true_iff, !negb_true_iff, !Z.eqb_neq, !len_zero.
  intros [Hs Hb]. apply nonempty_snoc in Hs as (stack' & top & Hs).
  destruct (Buffer c) as [| front buffer']; [done |]. eauto 6.
Qed.

Lemma asLeftArc_IsPossible_shape (l : string) (c : Configuration) :
  asLeftArc_IsPossible l c = true →
  ∃ stack' top front buffer',
    Stack c = stack' ++ [top] ∧ Buffer c = front :: buffer' ∧ top ≠ 0%N.
Proof.
  unfold asLeftArc_IsPossible.
  rewrite !andb_true_iff, !negb_true_iff, !Z.eqb_neq, !len_zero.
  intros [[Hs Hb] Htop]. apply nonempty_snoc in Hs as (stack' & top & Hs).
  destruct (Buffer c) as [| front buffer']; [done |].
  exists stack', top, front, buffer'. repeat split; [done |].
  rewrite Hs, index_last in Htop.
  apply negb_true_iff, N.eqb_neq in Htop. done.
Qed.

(** A legal transition applies without a panic, makes the measure
    [2 * |Buffer| + |Stack|] strictly smaller and keeps the arcs found
    so far. *)
Lemma Apply_decreases_measure (t : Transition) (c : Configuration) :
  IsPossible t c = true →
  ∃ c', Apply t c = Returns c' ∧ (measure c' < measure c)%nat
        ∧ Arcs c ⊆ Arcs c'.
Proof.
  destruct t as [| l | r]; simpl; intros Hp.
  - apply asShift_IsPossible_iff in Hp.
    destruct (Buffer c) as [| front buffer'] eqn:Hb; [done |].
    eexists. split; [by apply asShift_Apply_cons |]. split; [| done].
    unfold measure. simpl. rewrite Hb, length_app. simpl. lia.
  - apply asLeftArc_IsPossible_shape in Hp
      as (stack' & top & front & buffer' & Hs & Hb & _).
    eexists. split; [by apply asLeftArc_Apply_snoc |].
    split; [| apply union_subseteq_r].
    unfold measure. simpl. rewrite Hs, Hb, length_app. simpl. lia.
  - apply asRightArc_IsPossible_shape in Hp
      as (stack' & top & front & buffer' & Hs & Hb).
    eexists. split; [by apply asRightArc_Apply_snoc |].
    split; [| apply union_subseteq_r].
    unfold measure. simpl. rewrite Hs, Hb, length_app. simpl. lia.
Qed.

Section GreedyParser.

Variable g : Guide.

(** The guide answers every configuration that is not terminal with a
    transition that is legal there. *)
Hypothesis g_legal :
  ∀ c, ArcStandard_IsTerminal NewArcStandard c = false →
       ∃ t, g c = Returns t ∧ IsPossible t c = true.

Let p : GreedyParser := NewGreedyParser (ArcStandard_system NewArcStandard) g.

Lemma parseStep_decreases (c : Configuration) :
  ArcStandard_IsTerminal NewArcStandard c = false →
  ∃ c', parseStep p c = Returns c' ∧ (measure c' < measure c)%nat
        ∧ Arcs c ⊆ Arcs c'.
Proof.
  intros Hnt. destruct (g_legal c Hnt) as (t & Hg & Hp).
  destruct (Apply_decreases_measure t c Hp) as (c' & Ha & Hlt & Hsub).
  exists c'. split; [| done].
  unfold parseStep. simpl. rewrite Hg. simpl. done.
Qed.

Lemma parseConfiguration_bounded (n : nat) :
  ∀ c : Configuration, (measure c ≤ n)%nat →
  ∃ (k : nat) (c' : Configuration),
    (k ≤ measure c)%nat
    ∧ parseSteps p k c = Returns c'
    ∧ ArcStandard_IsTerminal NewArcStandard c' = true
    ∧ (∀ j, (j < k)%nat →
         ∃ cj, parseSteps p j c = Returns cj
               ∧ ArcStandard_IsTerminal NewArcStandard cj = false)
    ∧ Arcs c ⊆ Dependencies c'
    ∧ (∀ fuel, (k < fuel)%nat →
         GreedyParser_parseConfiguration fuel p c =
           Some (Returns (Dependencies c'))).
Proof.
  induction n as [| n IH]; intros c Hn.
  - exists 0%nat, c.
    assert (ArcStandard_IsTerminal NewArcStandard c = true) as Ht.
    { apply IsTerminal_iff. unfold measure in Hn.
      destruct (Buffer c); [done | simpl in Hn; lia]. }
    repeat split; [lia | done | lia | done |].
    intros [| fuel] Hf; [lia |]. simpl. by rewrite Ht.
  - destruct (ArcStandard_IsTerminal NewArcStandard c) eqn:Ht.
    + exists 0%nat, c. repeat split; [lia | done | lia | done |].
      intros [| fuel] Hf; [lia |]. simpl. by rewrite Ht.
    + destruct (parseStep_decreases c Ht) as (c1 & Hstep & Hlt & Hsub).
      destruct (IH c1 ltac:(lia))
        as (k & c' & Hk & Hrun & Hterm & Hmid & Hacc & Hfuel).
      exists (S k), c'. split; [lia |]. split; [| split; [done |]].
      { simpl. rewrite Hstep. done. }
      split; [| split].
      * intros [| j] Hj.
        -- exists c. done.
        -- destruct (Hmid j ltac:(lia)) as (cj & Hcj & Hntj).
           exists cj. split; [| done]. simpl. rewrite Hstep. done.
      * by transitivity (Arcs c1).
      * intros [| fuel] Hf; [lia |].
        simpl. rewrite Ht. simpl. rewrite Hstep. apply Hfuel. lia.
Qed.

End GreedyParser.

(** C9. With a guide that answers every non-terminal configuration with
    a transition legal there, the loop of the greedy parser, started in
    any configuration [c] (an initial one in particular), applies [k]
    transitions with [k ≤ 2 * |Buffer c| + |Stack c|], each of which
    makes that measure strictly smaller, reaches a terminal
    configuration [c'], and returns the dependencies of [c'], which
    include those of [c]. *)
Theorem parseConfiguration_terminates (g : Guide) (c : Configuration) :
  (∀ c0, ArcStandard_IsTerminal NewArcStandard c0 = false →
         ∃ t, g c0 = Returns t ∧ IsPossible t c0 = true) →
  let p := NewGreedyParser (ArcStandard_system NewArcStandard) g in
  (∀ t c0, IsPossible t c0 = true →
     ∃ c1, Apply t c0 = Returns c1 ∧
       (2 * length (Buffer c1) + length (Stack c1) <
        2 * length (Buffer c0) + length (Stack c0))%nat)
  ∧ ∃ (k : nat) (c' : Configuration),
      (k ≤ 2 * length (Buffer c) + length (Stack c))%nat
      ∧ parseSteps p k c = Returns c'
      ∧ IsTerminal (transitionSystem p) c' = true
      ∧ (∀ j, (j < k)%nat →
           ∃ cj, parseSteps p j c = Returns cj
                 ∧ IsTerminal (transitionSystem p) cj = false)
      ∧ Arcs c ⊆ Dependencies c'
      ∧ (∀ fuel, (k < fuel)%nat →
           GreedyParser_parseConfiguration fuel p c =
             Some (Returns (Dependencies c'))).
Proof.
  intros Hg p. split.
  - intros t c0 Hp.
    destruct (Apply_decreases_measure t c0 Hp) as (c1 & Ha & Hlt & _).
    by exists c1.
  - apply (parseConfiguration_bounded g Hg (measure c) c). lia.
Qed.

Lemma parseConfiguration_terminates_witness :
  let g : Guide := fun _ => Returns asShift in
  let c := mkConfiguration [] [] [] [] [0; 1; 2]%N ∅ in
  let p := NewGreedyParser (ArcStandard_system NewArcStandard) g in
  (∀ t c0, IsPossible t c0 = true →
     ∃ c1, Apply t c0 = Returns c1 ∧
       (2 * length (Buffer c1) + length (Stack c1) <
        2 * length (Buffer c0) + length (Stack c0))%nat)
  ∧ ∃ (k : nat) (c' : Configuration),
      (k ≤ 2 * length (Buffer c) + length (Stack c))%nat
      ∧ parseSteps p k c = Returns c'
      ∧ IsTerminal (transitionSystem p) c' = true
      ∧ (∀ j, (j < k)%nat →
           ∃ cj, parseSteps p j c = Returns cj
                 ∧ IsTerminal (transitionSystem p) cj = false)
      ∧ Arcs c ⊆ Dependencies c'
      ∧ (∀ fuel, (k < fuel)%nat →
           GreedyParser_parseConfiguration fuel p c =
             Some (Returns (Dependencies c'))).
Proof.
  intros g c.
  apply (parseConfiguration_terminates g c).
  intros c0 Hnt. exists asShift. split; [reflexivity |].
  simpl. unfold asShift_IsPossible.
  unfold ArcStandard_IsTerminal in Hnt. rewrite Hnt. reflexivity.
Defined.

End system_theory.

(** ** Feature addresses *)

Module features_theory.

Import system features features_spec goruntime_facts.

(** *** The order of the writes into the hash *)

Lemma appendHash_range_writes (components : list AddressComponent.t) (hash : Hash) :
  appendHash_range components hash = hash ++ address_writes components.
Proof.
  revert hash. induction components as [| component rest IH]; intros hash.
  - simpl. by rewrite app_nil_r.
  - simpl. rewrite IH. unfold Write. by rewrite <- !app_assoc.
Qed.

Lemma PutUint64_length (v : Z) : length (PutUint64 v) = 8%nat.
Proof. reflexivity. Qed.

Lemma appendHash_writes (a : AddressedValue.t) (hash : Hash) :
  appendHash a hash =
    hash ++ address_writes (AddressedValue.Address a)
         ++ (if AddressedValue.Layer a =? FEATURE
             then [list_byte_of_string (AddressedValue.LayerArg a)]
             else [])
         ++ [PutUint64 (uint64_of_int (AddressedValue.Layer a));
             list_byte_of_string (AddressedValue.Value a)].
Proof.
  unfold appendHash. rewrite appendHash_range_writes. unfold Write.
  destruct (AddressedValue.Layer a =? FEATURE); simpl;
    by rewrite <- !app_assoc.
Qed.

(** C4, as the code has it.  [appendHash] feeds the one accumulator, in
    this order: per address component, in path order, the source tag and
    the index, 8 bytes each; then, when the layer is FEATURE, the
    feature argument; then the layer tag, 8 bytes; then the resolved
    value. *)
Theorem appendHash_order (a : AddressedValue.t) (hash : Hash) :
  appendHash a hash =
    hash ++ address_writes (AddressedValue.Address a)
         ++ (if AddressedValue.Layer a =? FEATURE
             then [list_byte_of_string (AddressedValue.LayerArg a)]
             else [])
         ++ [PutUint64 (uint64_of_int (AddressedValue.Layer a));
             list_byte_of_string (AddressedValue.Value a)]
  ∧ Forall (fun w => length w = 8%nat)
      (address_writes (AddressedValue.Address a))
  ∧ length (PutUint64 (uint64_of_int (AddressedValue.Layer a))) = 8%nat.
Proof.
  split; [apply appendHash_writes |]. split; [| apply PutUint64_length].
  unfold address_writes.
  induction (AddressedValue.Address a) as [| component rest IH]; simpl.
  - constructor.
  - repeat constructor. exact IH.
Qed.

(** C4, as the specification words it, fails on a FEATURE layer: the
    code writes the feature argument before the layer tag, so the bytes
    fed to the hash differ from those of the specified order. *)
Lemma appendHash_not_as_specified :
  Hash_stream (appendHash stack0_case_nom []) ≠
  Hash_stream (appendHash_as_specified stack0_case_nom []).
Proof. vm_compute. discriminate. Qed.

(** On the other layers the two orders are the same. *)
Lemma appendHash_as_specified_other_layers (a : AddressedValue.t) (hash : Hash) :
  AddressedValue.Layer a ≠ FEATURE →
  appendHash a hash = appendHash_as_specified a hash.
Proof.
  intros Hl. rewrite appendHash_writes. unfold appendHash_as_specified.
  apply Z.eqb_neq in Hl. rewrite Hl. simpl. done.
Qed.

(** *** Resolution of a stack or buffer component *)

Section Resolution.

Variable LeftmostDependent : Configuration → N → N → option N.
Variable RightmostDependent : Configuration → N → N → option N.
Variable ConfigurationHead : Configuration → N → option Dependency.

Let Get_range := Get_range LeftmostDependent RightmostDependent.
Let Get := Get LeftmostDependent RightmostDependent ConfigurationHead.

Lemma Get_range_STACK_unavailable (c : Configuration) (k : N)
    (rest : list AddressComponent.t) (idx : nat) (token : N) :
  (N.of_nat (length (Stack c)) ≤ k)%N →
  Get_range c (AddressComponent.mk STACK k :: rest) idx token = Returns None.
Proof.
  intros Hk. unfold Get_range. simpl.
  apply N.leb_le in Hk. by rewrite Hk.
Qed.

Lemma Get_range_BUFFER_unavailable (c : Configuration) (k : N)
    (rest : list AddressComponent.t) (idx : nat) (token : N) :
  (N.of_nat (length (Buffer c)) ≤ k)%N →
  Get_range c (AddressComponent.mk BUFFER k :: rest) idx token = Returns None.
Proof.
  intros Hk. unfold Get_range. simpl.
  apply N.leb_le in Hk. by rewrite Hk.
Qed.

Lemma Get_range_STACK (c : Configuration) (k : N)
    (rest : list AddressComponent.t) (idx : nat) (token t : N) :
  reverse (Stack c) !! N.to_nat k = Some t →
  Get_range c (AddressComponent.mk STACK k :: rest) idx token =
  Get_range c rest (S idx) t.
Proof.
  intros Ht. unfold Get_range. simpl.
  pose proof (lookup_lt_Some _ _ _ Ht) as Hlt. rewrite length_reverse in Hlt.
  rewrite reverse_lookup in Ht by done.
  destruct (N.leb_spec (N.of_nat (length (Stack c))) k) as [Hle | _]; [lia |].
  replace (Z.of_N (N.of_nat (length (Stack c)) - k - 1))
    with (Z.of_nat (length (Stack c) - S (N.to_nat k))) by lia.
  by rewrite (index_lookup _ _ _ Ht).
Qed.

Lemma Get_range_BUFFER (c : Configuration) (k : N)
    (rest : list AddressComponent.t) (idx : nat) (token t : N) :
  Buffer c !! N.to_nat k = Some t →
  Get_range c (AddressComponent.mk BUFFER k :: rest) idx token =
  Get_range c rest (S idx) t.
Proof.
  intros Ht. unfold Get_range. simpl.
  pose proof (lookup_lt_Some _ _ _ Ht) as Hlt.
  destruct (N.leb_spec (N.of_nat (length (Buffer c))) k) as [Hle | _]; [lia |].
  replace (Z.of_N k) with (Z.of_nat (N.to_nat k)) by lia.
  by rewrite (index_lookup _ _ _ Ht).
Qed.

Lemma Get_TOKEN (c : Configuration) (components : list AddressComponent.t)
    (arg value : string) (t : N) (form : string) :
  Get_range c components 0 0%N = Returns (Some t) →
  Tokens c !! N.to_nat t = Some form →
  Get (AddressedValue.mk components TOKEN arg value) c = Returns (form, true).
Proof.
  intros Hr Hf. unfold Get, features.Get. simpl.
  fold Get_range. rewrite Hr. simpl.
  replace (Z.of_N t) with (Z.of_nat (N.to_nat t)) by lia.
  by rewrite (index_lookup _ _ _ Hf).
Qed.

Lemma Get_unavailable (c : Configuration) (a : AddressedValue.t) :
  Get_range c (AddressedValue.Address a) 0 0%N = Returns None →
  Get a c = Returns (""%string, false).
Proof.
  intros Hr. unfold Get, features.Get. fold Get_range. by rewrite Hr.
Qed.

(** C8. An address that starts with STACK [k] (resp. BUFFER [k])
    resolves its first component to the token [k] places from the stack
    top (resp. the buffer front), [0] being the nearest, and goes on from
    there; on its own with the layer TOKEN it yields that token's form.
    When [k] is at least the number of elements, [Get] returns
    ("", false) and does not panic.  With Stack = [2, 5], [STACK 0] TOKEN
    yields the form of token 5 and [STACK 2] TOKEN is unavailable. *)
Theorem Get_stack_buffer_offset (c : Configuration) (k : N)
    (rest : list AddressComponent.t) (layer : Layer) (arg value : string) :
  ((N.of_nat (length (Stack c)) ≤ k)%N →
     Get (AddressedValue.mk (AddressComponent.mk STACK k :: rest)
            layer arg value) c = Returns (""%string, false))
  ∧ ((N.of_nat (length (Buffer c)) ≤ k)%N →
     Get (AddressedValue.mk (AddressComponent.mk BUFFER k :: rest)
            layer arg value) c = Returns (""%string, false))
  ∧ (∀ t, reverse (Stack c) !! N.to_nat k = Some t →
       Get_range c (AddressComponent.mk STACK k :: rest) 0 0%N =
         Get_range c rest 1 t
       ∧ ∀ form, Tokens c !! N.to_nat t = Some form →
           Get (AddressedValue.mk [AddressComponent.mk STACK k]
                  TOKEN arg value) c = Returns (form, true))
  ∧ (∀ t, Buffer c !! N.to_nat k = Some t →
       Get_range c (AddressComponent.mk BUFFER k :: rest) 0 0%N =
         Get_range c rest 1 t
       ∧ ∀ form, Tokens c !! N.to_nat t = Some form →
           Get (AddressedValue.mk [AddressComponent.mk BUFFER k]
                  TOKEN arg value) c = Returns (form, true))
  ∧ (Stack c = [2; 5]%N →
       (∀ form, Tokens c !! 5%nat = Some form →
          Get (AddressedValue.mk [AddressComponent.mk STACK 0]
                 TOKEN arg value) c = Returns (form, true))
       ∧ Get (AddressedValue.mk [AddressComponent.mk STACK 2]
                TOKEN arg value) c = Returns (""%string, false)).
Proof.
  split; [| split; [| split; [| split]]].
  - intros Hk. apply Get_unavailable. cbn [AddressedValue.Address].
    by apply Get_range_STACK_unavailable.
  - intros Hk. apply Get_unavailable. cbn [AddressedValue.Address].
    by apply Get_range_BUFFER_unavailable.
  - intros t Ht. split; [by apply Get_range_STACK |].
    intros form Hf. apply (Get_TOKEN c _ arg value t form); [| done].
    by rewrite (Get_range_STACK c k [] 0 0%N t Ht).
  - intros t Ht. split; [by apply Get_range_BUFFER |].
    intros form Hf. apply (Get_TOKEN c _ arg value t form); [| done].
    by rewrite (Get_range_BUFFER c k [] 0 0%N t Ht).
  - intros Hs. split.
    + intros form Hf. apply (Get_TOKEN c _ arg value 5%N form); [| done].
      rewrite (Get_range_STACK c 0 [] 0 0%N 5%N); [done |].
      by rewrite Hs.
    + apply Get_unavailable. cbn [AddressedValue.Address].
      apply Get_range_STACK_unavailable. rewrite Hs. simpl. lia.
Qed.

End Resolution.

Lemma Get_stack_buffer_offset_witness :
  let none : Configuration → N → N → option N := fun _ _ _ => None in
  let nohead : Configuration → N → option Dependency := fun _ _ => None in
  Get none none nohead
    (AddressedValue.mk [AddressComponent.mk STACK 0] TOKEN "" "") stack_2_5 =
    Returns ("e"%string, true)
  ∧ Get none none nohead
      (AddressedValue.mk [AddressComponent.mk STACK 2] TOKEN "" "") stack_2_5 =
      Returns (""%string, false)
  ∧ Get none none nohead
      (AddressedValue.mk [AddressComponent.mk BUFFER 1] TAG "" "") stack_2_5 =
      Returns (""%string, false).
Proof.
  intros none nohead.
  pose proof (Get_stack_buffer_offset none none nohead stack_2_5 2 [] TOKEN "" "")
    as (Hstack & _ & _ & _ & Hex).
  pose proof (Get_stack_buffer_offset none none nohead stack_2_5 1 [] TAG "" "")
    as (_ & Hbuffer & _).
  split; [| split].
  - apply (proj1 (Hex eq_refl)). reflexivity.
  - apply Hstack. simpl. lia.
  - apply Hbuffer. simpl. lia.
Defined.

End features_theory.

(** ** The hashing SVM guide *)

Module ml_theory.

Import system ml ml_spec goruntime_facts.

(** *** Bounding the feature hashes *)

Lemma land_bit31 (h : Z) :
  (Z.land h 0x80000000 =? 0x80000000) = Z.testbit h 31.
Proof.
  change 0x80000000 with (2 ^ 31).
  destruct (Z.testbit h 31) eqn:Hb.
  - apply Z.eqb_eq. apply Z.bits_inj'. intros n Hn.
    rewrite Z.land_spec, Z.pow2_bits_eqb by lia.
    destruct (Z.eqb_spec 31 n) as [<- | _]; [by rewrite Hb | apply andb_false_r].
  - apply Z.eqb_neq. intros Heq.
    assert (Z.testbit (Z.land h (2 ^ 31)) 31 = true) as Ht.
    { rewrite Heq. by rewrite Z.pow2_bits_eqb. }
    rewrite Z.land_spec, Hb in Ht. done.
Qed.

Lemma land_low31_range (h : Z) : 0 <= Z.land h 0x7fffffff < 2 ^ 31.
Proof.
  change 0x7fffffff with (Z.ones 31).
  rewrite Z.land_ones by lia. apply Z.mod_pos_bound. lia.
Qed.

(** For a hash of 32 bits, this is the hash with bit 31 cleared. *)
Lemma land_low31_clearbit (h : Z) :
  0 <= h < 2 ^ 32 → Z.land h 0x7fffffff = Z.clearbit h 31.
Proof.
  intros Hh. change 0x7fffffff with (Z.ones 31).
  apply Z.bits_inj'. intros n Hn.
  rewrite Z.land_spec, Z.clearbit_eqb by lia.
  destruct (Z.eqb_spec 31 n) as [<- | Hne].
  - rewrite Z.ones_spec_high by lia. done.
  - cbn [negb]. rewrite andb_true_r.
    destruct (Z.lt_ge_cases n 31) as [Hlo | Hhi].
    + rewrite Z.ones_spec_low by lia. apply andb_true_r.
    + rewrite Z.ones_spec_high by lia. rewrite andb_false_r.
      symmetry. destruct (Z.eq_dec h 0) as [-> | Hh0];
        [apply Z.bits_0 |].
      apply Z.bits_above_log2; [lia |].
      assert (Z.log2 h < 32) by (apply Z.log2_lt_pow2; lia). lia.
Qed.

Lemma wrap_int_small (z : Z) : - 2 ^ 63 <= z < 2 ^ 63 → wrap_int z = z.
Proof. intros Hz. unfold wrap_int. rewrite Z.mod_small; lia. Qed.

Lemma int_of_uint_small (M : N) : (M < 2 ^ 63)%N → int_of_uint M = Z.of_N M.
Proof.
  intros HM. unfold int_of_uint.
  assert (Z.of_N M < 2 ^ 63) by lia.
  rewrite Z.mod_small by lia.
  destruct (Z.ltb_spec (Z.of_N M) (2 ^ 63)); [done | lia].
Qed.

Lemma int_of_uint_large (M : N) :
  (2 ^ 63 ≤ M < 2 ^ 64)%N → int_of_uint M = Z.of_N M - 2 ^ 64.
Proof.
  intros HM. unfold int_of_uint.
  assert (2 ^ 63 <= Z.of_N M < 2 ^ 64) by lia.
  rewrite Z.mod_small by lia.
  destruct (Z.ltb_spec (Z.of_N M) (2 ^ 63)); [lia | done].
Qed.

(** The truncated remainder of a non-negative [x] stays within [0, x]
    and below the magnitude of the divisor. *)
Lemma rem_nonneg_bounds (x m : Z) :
  0 <= x → m ≠ 0 → 0 <= Z.rem x m <= x ∧ Z.rem x m < Z.abs m.
Proof.
  intros Hx Hm.
  assert (Z.rem x m = x mod Z.abs m) as ->.
  { destruct (Z.abs_spec m) as [[Hp ->] | [Hn ->]].
    - apply Z.rem_mod_nonneg; lia.
    - rewrite <- (Z.rem_opp_r x m) by done. apply Z.rem_mod_nonneg; lia. }
  pose proof (Z.mod_pos_bound x (Z.abs m) ltac:(lia)).
  pose proof (Z.mod_le x (Z.abs m) Hx ltac:(lia)). lia.
Qed.

(** C7, as the code has it.  For a bound [M] that is a [uint] with
    [1 ≤ M], the feature is bounded without a panic; its value is
    multiplied by -1 when bit 31 of the hash [h] is set and by +1
    otherwise; its index lies in [1, M]; and when [M < 2^63], so that
    [int(M)] is [M], the index is [(h & 0x7fffffff) mod M + 1]. *)
Theorem boundFeature_index_sign (h : Z) (v : float) (M : N) :
  (1 ≤ M < 2 ^ 64)%N →
  ∃ i : Z,
    boundFeature M (mkFeatureValue h v) =
      Returns (mkFeatureValue i
                 (v * (if Z.testbit h 31 then (-1) else 1))%float)
    ∧ 1 <= i <= Z.of_N M
    ∧ ((M < 2 ^ 63)%N → i = Z.land h 0x7fffffff mod Z.of_N M + 1).
Proof.
  intros HM. pose proof (land_low31_range h) as Hx.
  assert (int_of_uint M ≠ 0 ∧ (Z.abs (int_of_uint M) <= Z.of_N M) ∧
          ((M < 2 ^ 63)%N → int_of_uint M = Z.of_N M)) as (Hm0 & Habs & Hsmall).
  { destruct (N.lt_ge_cases M (2 ^ 63)) as [Hlt | Hge].
    - rewrite (int_of_uint_small M Hlt). lia.
    - rewrite (int_of_uint_large M) by lia. lia. }
  destruct (rem_nonneg_bounds (Z.land h 0x7fffffff) (int_of_uint M))
    as (Hr & Hrm); [lia | done |].
  exists (Z.rem (Z.land h 0x7fffffff) (int_of_uint M) + 1).
  split; [| split].
  - unfold boundFeature, int_rem. cbn [Index Value].
    rewrite land_bit31.
    destruct (Z.eqb_spec (int_of_uint M) 0) as [H0 | _]; [done |].
    cbn [mbind go_bind].
    rewrite !wrap_int_small by (rewrite ?wrap_int_small; lia).
    by destruct (Z.testbit h 31).
  - assert (2 ^ 31 <= Z.of_N M ∨ Z.of_N M < 2 ^ 63) as [Hbig | Hlt] by lia.
    + lia.
    + assert (int_of_uint M = Z.of_N M) as E by (apply Hsmall; lia).
      rewrite E in *. lia.
  - intros Hlt. rewrite (Hsmall Hlt). rewrite Z.rem_mod_nonneg by lia. done.
Qed.

Lemma boundFeature_index_sign_witness :
  ∃ i : Z,
    boundFeature 10 (mkFeatureValue 0x80000005 1%float) =
      Returns (mkFeatureValue i
                 (1 * (if Z.testbit 0x80000005 31 then (-1) else 1))%float)
    ∧ 1 <= i <= Z.of_N 10
    ∧ ((10 < 2 ^ 63)%N → i = Z.land 0x80000005 0x7fffffff mod Z.of_N 10 + 1).
Proof.
  apply (boundFeature_index_sign 0x80000005 1%float 10). lia.
Defined.

(** C7, as the specification words it, fails for a bound of [2^63] or
    more, which [int(M)] turns negative: with [M = 2^64 - 1] the divisor
    is [-1] and every index is [1], where the specification has
    [5 mod M + 1 = 6] for the hash [5]. *)
Lemma boundFeature_not_as_specified :
  boundFeature (2 ^ 64 - 1) (mkFeatureValue 5 1%float) ≠
  Returns (boundFeature_as_specified (2 ^ 64 - 1) (mkFeatureValue 5 1%float)).
Proof. vm_compute. intros [=]. Qed.

(** *** The label of the best decision value *)

Lemma ltb_neg_infinity (x : float) : (x <? neg_infinity)%float = false.
Proof.
  rewrite ltb_spec.
  change (Prim2SF neg_infinity) with (S754_infinity true).
  unfold SFltb, SFcompare.
  by destruct (Prim2SF x) as [[] | [] | | [] ? ?].
Qed.

Section BestLabel.

Variable g : HashingSVMGuide.
Variable c : Configuration.
Variable labels : list Z.

(** Past the last maximum nothing changes: every value is skipped,
    either as smaller than the best one or as that of an illegal label. *)
Lemma bestLabel_range_skip (values : list float) :
  ∀ (idx : nat) (bestValue : float) (bestLabel : option Transition),
  (∀ j vj, values !! j = Some vj →
     ∃ nj, labels !! (idx + j)%nat = Some nj
           ∧ (IsPossible (labelNumberer g nj) c = true →
              (vj <? bestValue)%float = true)) →
  bestLabel_range g c labels idx values bestValue bestLabel = Returns bestLabel.
Proof.
  induction values as [| value rest IH]; intros idx bestValue bestLabel H;
    [done |].
  assert (∀ j vj, rest !! j = Some vj →
            ∃ nj, labels !! (S idx + j)%nat = Some nj
                  ∧ (IsPossible (labelNumberer g nj) c = true →
                     (vj <? bestValue)%float = true)) as Hrest.
  { intros j vj Hj. destruct (H (S j) vj Hj) as (nj & Hnj & Hlt).
    exists nj. split; [| done]. by replace (S idx + j)%nat with (idx + S j)%nat by lia. }
  simpl. destruct (value <? bestValue)%float eqn:Hv; [by apply IH |].
  destruct (H 0%nat value eq_refl) as (nj & Hnj & Hlt).
  rewrite Nat.add_0_r in Hnj. rewrite (index_lookup _ _ _ Hnj).
  cbn [mbind go_bind].
  destruct (IsPossible (labelNumberer g nj) c) eqn:Hp.
  - rewrite Hlt in Hv; done.
  - cbn [negb]. by apply IH.
Qed.

(** Up to the last maximum: whatever the best value so far, as long as
    [v] is not below it, the loop ends with the label at [i]. *)
Lemma bestLabel_range_last (values : list float) (n : Z) (v : float) :
  ∀ (i idx : nat) (bestValue : float) (bestLabel : option Transition),
  (v <? bestValue)%float = false →
  values !! i = Some v → labels !! (idx + i)%nat = Some n →
  IsPossible (labelNumberer g n) c = true →
  (∀ j vj, values !! j = Some vj →
     ∃ nj, labels !! (idx + j)%nat = Some nj
           ∧ (IsPossible (labelNumberer g nj) c = true →
              (v <? vj)%float = false
              ∧ ((i < j)%nat → (vj <? v)%float = true))) →
  bestLabel_range g c labels idx values bestValue bestLabel =
    Returns (Some (labelNumberer g n)).
Proof.
  induction values as [| value rest IH];
    intros i idx bestValue bestLabel Hbest Hi Hn Hp H; [done |].
  assert (∀ j vj, rest !! j = Some vj →
            ∃ nj, labels !! (S idx + j)%nat = Some nj
                  ∧ (IsPossible (labelNumberer g nj) c = true →
                     (v <? vj)%float = false
                     ∧ ((i < S j)%nat → (vj <? v)%float = true))) as Hrest.
  { intros j vj Hj. destruct (H (S j) vj Hj) as (nj & Hnj & Hlt).
    exists nj. split; [| done]. by replace (S idx + j)%nat with (idx + S j)%nat by lia. }
  destruct i as [| i].
  - (* the maximum itself *)
    simpl in Hi. injection Hi as ->. rewrite Nat.add_0_r in Hn.
    simpl. rewrite Hbest. rewrite (index_lookup _ _ _ Hn).
    cbn [mbind go_bind]. rewrite Hp. cbn [negb].
    apply bestLabel_range_skip. intros j vj Hj.
    destruct (Hrest j vj Hj) as (nj & Hnj & Hlt).
    exists nj. split; [done |]. intros Hpj. apply Hlt; [done | lia].
  - (* a value before the maximum *)
    simpl in Hi.
    assert (∀ j vj, rest !! j = Some vj →
              ∃ nj, labels !! (S idx + j)%nat = Some nj
                    ∧ (IsPossible (labelNumberer g nj) c = true →
                       (v <? vj)%float = false
                       ∧ ((i < j)%nat → (vj <? v)%float = true))) as Hrest'.
    { intros j vj Hj. destruct (Hrest j vj Hj) as (nj & Hnj & Hlt).
      exists nj. split; [done |]. intros Hpj.
      destruct (Hlt Hpj) as [H1 H2]. split; [done |]. intros Hij. apply H2. lia. }
    assert (labels !! (S idx + i)%nat = Some n) as Hn'
      by (by replace (S idx + i)%nat with (idx + S i)%nat by lia).
    simpl. destruct (value <? bestValue)%float eqn:Hv.
    + by apply (IH i (S idx)).
    + destruct (H 0%nat value eq_refl) as (n0 & Hn0 & Hlt0).
      rewrite Nat.add_0_r in Hn0. rewrite (index_lookup _ _ _ Hn0).
      cbn [mbind go_bind].
      destruct (IsPossible (labelNumberer g n0) c) eqn:Hp0; cbn [negb].
      * apply (IH i (S idx)); try done. by apply Hlt0.
      * by apply (IH i (S idx)).
Qed.

End BestLabel.

(** C3, as the code has it.  When the model gives a decision value for no
    more labels than it enumerates, and index [i] is the last one that
    holds a legal label of maximum decision value (no legal label
    exceeds it, the legal labels after it are strictly below), the guide
    returns the label at [i]: among legal labels that share the maximum,
    the last of the model's enumeration wins. *)
Theorem last_seen_wins (g : HashingSVMGuide) (c : Configuration)
    (x : list FeatureValue) (i : nat) (n : Z) (v : float) :
  boundFeatures (maxFeatures g) (featureGenerator g c) = Returns x →
  (length (PredictDecisionValuesSlice (model g) x)
     ≤ length (Labels (model g)))%nat →
  last_legal_maximum g c (Labels (model g))
    (PredictDecisionValuesSlice (model g) x) i n v →
  HashingSVMGuide_BestTransition g c = Returns (Some (labelNumberer g n)).
Proof.
  intros Hx Hlen ((Hv & Hn & Hp & Hmax) & Hlast).
  unfold HashingSVMGuide_BestTransition. rewrite Hx. cbn [mbind go_bind].
  apply (bestLabel_range_last g c (Labels (model g)) _ n v i 0%nat);
    try done.
  - apply ltb_neg_infinity.
  - intros j vj Hj.
    destruct (lookup_lt_is_Some_2 (Labels (model g)) j) as [nj Hnj].
    { pose proof (lookup_lt_Some _ _ _ Hj). lia. }
    exists nj. split; [done |]. intros Hpj.
    assert (legal_at g c (Labels (model g)) j) as Hlegal by (by exists nj).
    split; [by apply (Hmax j) | intros Hij; by apply (Hlast j)].
Qed.

Lemma last_seen_wins_witness :
  HashingSVMGuide_BestTransition tied_guide tied_configuration =
  Returns (Some (asRightArc "obj")).
Proof.
  apply (last_seen_wins tied_guide tied_configuration [] 1 1 0.5%float).
  - reflexivity.
  - simpl. lia.
  - split; [split; [| split; [| split]] |].
    + reflexivity.
    + reflexivity.
    + reflexivity.
    + intros [| [| j]] vj Hj _; simpl in Hj; [| | done];
        injection Hj as <-; reflexivity.
    + intros [| [| j]] vj Hij Hj _; simpl in Hj; [lia | lia | done].
Defined.

(** C3, as the specification words it, fails: with the two tied labels
    the first legal maximum is Shift, and the guide returns
    RightArc(obj). *)
Lemma first_seen_wins_fails : ¬ first_seen_wins tied_guide tied_configuration.
Proof.
  intros H.
  assert (HashingSVMGuide_BestTransition tied_guide tied_configuration =
          Returns (Some asShift)) as Hfirst.
  { apply (H [] 0%nat 0 0.5%float); [reflexivity |].
    split; [split; [| split; [| split]] |].
    - reflexivity.
    - reflexivity.
    - reflexivity.
    - intros [| [| j]] vj Hj _; simpl in Hj; [| | done];
        injection Hj as <-; reflexivity.
    - intros j vj Hj. lia. }
  vm_compute in Hfirst. discriminate Hfirst.
Qed.

End ml_theory.

(** * Further properties of the code *)

(** ** Transitions: when they apply and what they keep *)

Module system_extra.

Import system system_spec goruntime_facts system_theory.

Lemma index_nil_panics {A} (i : Z) : ∃ msg, index (@nil A) i = Panics msg.
Proof.
  unfold index. destruct ((i <? 0) || (len (@nil A) <=? i)) eqn:E.
  - by eexists.
  - apply orb_false_iff in E as [E1 E2].
    apply Z.ltb_ge in E1. apply Z.leb_gt in E2. unfold len in E2. simpl in E2. lia.
Qed.

(** What a transition that returns has found and done. *)
Lemma Apply_inv (t : Transition) (c c' : Configuration) :
  Apply t c = Returns c' →
  match t with
  | asShift =>
      ∃ front buffer',
        Buffer c = front :: buffer'
        ∧ c' = mkConfiguration (Tokens c) (Tags c) (Features c)
                 (Stack c ++ [front]) buffer' (Arcs c)
  | asLeftArc l =>
      ∃ stack' top front buffer',
        Stack c = stack' ++ [top] ∧ Buffer c = front :: buffer'
        ∧ c' = mkConfiguration (Tokens c) (Tags c) (Features c)
                 stack' (front :: buffer')
                 ({[mkDependency front l top]} ∪ Arcs c)
  | asRightArc r =>
      ∃ stack' top front buffer',
        Stack c = stack' ++ [top] ∧ Buffer c = front :: buffer'
        ∧ c' = mkConfiguration (Tokens c) (Tags c) (Features c)
                 stack' (top :: buffer')
                 ({[mkDependency top r front]} ∪ Arcs c)
  end.
Proof.
  destruct (Buffer c) as [| front buffer'] eqn:Hb.
  { (* every transition reads [c.Buffer[0]] first *)
    destruct (@index_nil_panics N 0) as [msg Hmsg].
    destruct t; simpl;
      unfold asShift_Apply, asLeftArc_Apply, asRightArc_Apply;
      rewrite Hb, Hmsg; simpl; discriminate. }
  destruct t as [| l | r]; simpl.
  - rewrite (asShift_Apply_cons c front buffer' Hb). intros [= <-]. eauto.
  - destruct (decide (Stack c = [])) as [Hs | Hs].
    + destruct (@index_nil_panics N (len (@nil N) - 1)) as [msg Hmsg].
      unfold asLeftArc_Apply. rewrite Hb, index_head. simpl.
      rewrite Hs, Hmsg. simpl. discriminate.
    + apply nonempty_snoc in Hs as (stack' & top & Hs).
      rewrite (asLeftArc_Apply_snoc l c stack' top front buffer' Hs Hb).
      intros [= <-]. eauto 8.
  - destruct (decide (Stack c = [])) as [Hs | Hs].
    + destruct (@index_nil_panics N (len (@nil N) - 1)) as [msg Hmsg].
      unfold asRightArc_Apply. rewrite Hb, index_head. simpl.
      rewrite Hs, Hmsg. simpl. discriminate.
    + apply nonempty_snoc in Hs as (stack' & top & Hs).
      rewrite (asRightArc_Apply_snoc r c stack' top front buffer' Hs Hb).
      intros [= <-]. eauto 8.
Qed.

(** X1. LeftArc(rel), applied to a stack that ends in [top] and a buffer
    that starts with [front], adds the dependency (head [front], [rel],
    dependent [top]) and pops the stack; the buffer is unchanged. *)
Theorem asLeftArc_Apply_effect (rel : string) (c : Configuration)
    (stack' : list N) (top front : N) (buffer' : list N) :
  Stack c = stack' ++ [top] → Buffer c = front :: buffer' →
  Apply (asLeftArc rel) c =
    Returns (mkConfiguration (Tokens c) (Tags c) (Features c)
               stack' (Buffer c)
               ({[mkDependency front rel top]} ∪ Arcs c)).
Proof.
  intros Hs Hb. simpl. rewrite (asLeftArc_Apply_snoc rel c _ _ _ _ Hs Hb).
  by rewrite Hb.
Qed.

Lemma asLeftArc_Apply_effect_witness :
  Apply (asLeftArc "nsubj")
    (mkConfiguration [] [] [] [0; 1]%N [2; 3]%N ∅) =
  Returns (mkConfiguration [] [] [] [0]%N [2; 3]%N
             ({[mkDependency 2 "nsubj" 1]} ∪ ∅)).
Proof.
  apply (asLeftArc_Apply_effect "nsubj"
           (mkConfiguration [] [] [] [0; 1]%N [2; 3]%N ∅)
           [0%N] 1%N 2%N [3%N]); reflexivity.
Defined.

(** X2. Shift, applied to a buffer that starts with [front], moves
    [front] from the front of the buffer to the top of the stack and
    leaves the arcs alone. *)
Theorem asShift_Apply_effect (c : Configuration) (front : N)
    (buffer' : list N) :
  Buffer c = front :: buffer' →
  Apply asShift c =
    Returns (mkConfiguration (Tokens c) (Tags c) (Features c)
               (Stack c ++ [front]) buffer' (Arcs c))
  ∧ last (Stack c ++ [front]) = Some front.
Proof.
  intros Hb. split; [by apply asShift_Apply_cons | apply last_snoc].
Qed.

Lemma asShift_Apply_effect_witness :
  Apply asShift (mkConfiguration [] [] [] [0]%N [1; 2]%N ∅) =
    Returns (mkConfiguration [] [] [] [0; 1]%N [2]%N ∅)
  ∧ last ([0]%N ++ [1%N]) = Some 1%N.
Proof.
  apply (asShift_Apply_effect (mkConfiguration [] [] [] [0]%N [1; 2]%N ∅)
           1%N [2%N]).
  reflexivity.
Defined.

(** X3. A transition returns exactly when the buffer is not empty and,
    for the two arc transitions, neither is the stack; otherwise it
    panics on an index out of range. *)
Theorem Apply_returns_iff (t : Transition) (c : Configuration) :
  (∃ c', Apply t c = Returns c') ↔
  Buffer c ≠ [] ∧ (t = asShift ∨ Stack c ≠ []).
Proof.
  split.
  - intros [c' Ha]. apply Apply_inv in Ha.
    destruct t as [| l | r].
    + destruct Ha as (front & buffer' & Hb & _). rewrite Hb. split; [done | by left].
    + destruct Ha as (stack' & top & front & buffer' & Hs & Hb & _).
      rewrite Hs, Hb. split; [done |]. right. by destruct stack'.
    + destruct Ha as (stack' & top & front & buffer' & Hs & Hb & _).
      rewrite Hs, Hb. split; [done |]. right. by destruct stack'.
  - intros [Hb Hts].
    destruct (Buffer c) as [| front buffer'] eqn:Ebuf; [done |].
    destruct t as [| l | r].
    + eexists. by apply asShift_Apply_cons.
    + destruct Hts as [| Hs]; [done |].
      apply nonempty_snoc in Hs as (stack' & top & Hs).
      eexists. by apply asLeftArc_Apply_snoc.
    + destruct Hts as [| Hs]; [done |].
      apply nonempty_snoc in Hs as (stack' & top & Hs).
      eexists. by apply asRightArc_Apply_snoc.
Qed.

(** X4. Legality depends on the shape of the configuration alone, not on
    the label: Shift needs a buffer that is not empty, RightArc a stack
    and a buffer that are not empty, LeftArc moreover a stack top other
    than ROOT (token 0). *)
Theorem IsPossible_by_shape (c : Configuration) (l r : string) :
  (IsPossible asShift c = true ↔ Buffer c ≠ [])
  ∧ (IsPossible (asRightArc r) c = true ↔ Stack c ≠ [] ∧ Buffer c ≠ [])
  ∧ (IsPossible (asLeftArc l) c = true ↔
     Buffer c ≠ [] ∧ ∃ top, last (Stack c) = Some top ∧ top ≠ 0%N).
Proof.
  split; [apply asShift_IsPossible_iff |]. split.
  - simpl. unfold asRightArc_IsPossible.
    by rewrite andb_true_iff, !negb_true_iff, !Z.eqb_neq, !len_zero.
  - simpl. split.
    + intros Hp. apply asLeftArc_IsPossible_shape in Hp
        as (stack' & top & front & buffer' & Hs & Hb & Htop).
      rewrite Hs, Hb. split; [done |]. exists top. by rewrite last_snoc.
    + intros (Hb & top & Hlast & Htop).
      apply last_Some in Hlast as [stack' Hs].
      unfold asLeftArc_IsPossible.
      rewrite !andb_true_iff, !negb_true_iff, !Z.eqb_neq, !len_zero.
      split; [split; [rewrite Hs; by destruct stack' | done] |].
      rewrite Hs, index_last. by apply negb_true_iff, N.eqb_neq.
Qed.

(** X5. [Apply] does not check legality: on a stack with ROOT (token 0)
    on top LeftArc is not legal, and yet applying it returns, with an
    arc that makes ROOT a dependent of the buffer front. *)
Theorem asLeftArc_at_root (rel : string) (c : Configuration)
    (stack' : list N) (front : N) (buffer' : list N) :
  Stack c = stack' ++ [0%N] → Buffer c = front :: buffer' →
  IsPossible (asLeftArc rel) c = false
  ∧ ∃ c', Apply (asLeftArc rel) c = Returns c'
          ∧ mkDependency front rel 0 ∈ Arcs c'.
Proof.
  intros Hs Hb. split.
  - simpl. unfold asLeftArc_IsPossible. rewrite Hs, index_last. simpl.
    apply andb_false_r.
  - eexists. split; [by apply (asLeftArc_Apply_snoc rel c stack' 0%N front buffer') |].
    simpl. set_solver.
Qed.

Lemma asLeftArc_at_root_witness :
  let c := mkConfiguration [] [] [] [0]%N [1; 2]%N ∅ in
  IsPossible (asLeftArc "x") c = false
  ∧ ∃ c', Apply (asLeftArc "x") c = Returns c'
          ∧ mkDependency 1 "x" 0 ∈ Arcs c'.
Proof.
  intros c. apply (asLeftArc_at_root "x" c [] 1%N [2%N]); reflexivity.
Defined.

Lemma Apply_exact (t : Transition) (c c' : Configuration) :
  Apply t c = Returns c' →
  measure c = S (measure c')
  ∧ Tokens c' = Tokens c ∧ Tags c' = Tags c ∧ Features c' = Features c
  ∧ Arcs c ⊆ Arcs c'
  ∧ (size (Arcs c') ≤ S (size (Arcs c)))%nat.
Proof.
  intros Ha. apply Apply_inv in Ha. unfold measure.
  destruct t as [| l | r].
  - destruct Ha as (front & buffer' & Hb & ->). simpl.
    rewrite Hb, length_app. simpl. repeat split; try done; lia.
  - destruct Ha as (stack' & top & front & buffer' & Hs & Hb & ->). simpl.
    rewrite Hs, Hb, length_app. simpl.
    repeat split; try done; [lia | apply union_subseteq_r |].
    rewrite size_union_alt, size_singleton.
    pose proof (subseteq_size (Arcs c ∖ {[mkDependency front l top]}) (Arcs c)
                  (subseteq_difference_l _ _ _ (reflexivity _))). lia.
  - destruct Ha as (stack' & top & front & buffer' & Hs & Hb & ->). simpl.
    rewrite Hs, Hb, length_app. simpl.
    repeat split; try done; [lia | apply union_subseteq_r |].
    rewrite size_union_alt, size_singleton.
    pose proof (subseteq_size (Arcs c ∖ {[mkDependency top r front]}) (Arcs c)
                  (subseteq_difference_l _ _ _ (reflexivity _))). lia.
Qed.

(** X6. Every transition that returns lowers the measure
    [2 * |Buffer| + |Stack|] by exactly one, leaves the tokens, the tags
    and the features as they are, and keeps every arc, adding at most
    one. *)
Theorem Apply_measure_exact (t : Transition) (c c' : Configuration) :
  Apply t c = Returns c' →
  measure c = S (measure c')
  ∧ Tokens c' = Tokens c ∧ Tags c' = Tags c ∧ Features c' = Features c
  ∧ Arcs c ⊆ Arcs c'
  ∧ (size (Arcs c') ≤ S (size (Arcs c)))%nat.
Proof. apply Apply_exact. Qed.

Lemma Apply_measure_exact_witness :
  let c := mkConfiguration [] [] [] [0; 1]%N [2; 3]%N ∅ in
  let c' := mkConfiguration [] [] [] [0]%N [1; 3]%N
              ({[mkDependency 1 "obj" 2]} ∪ ∅) in
  measure c = S (measure c')
  ∧ Tokens c' = Tokens c ∧ Tags c' = Tags c ∧ Features c' = Features c
  ∧ Arcs c ⊆ Arcs c'
  ∧ (size (Arcs c') ≤ S (size (Arcs c)))%nat.
Proof.
  intros c c'. apply (Apply_measure_exact (asRightArc "obj") c c').
  reflexivity.
Defined.

Lemma Apply_sublist (t : Transition) (c c' : Configuration) :
  Apply t c = Returns c' →
  working_set c' `sublist_of` working_set c
  ∧ (t = asShift → working_set c' = working_set c).
Proof.
  intros Ha. apply Apply_inv in Ha. unfold working_set.
  destruct t as [| l | r].
  - destruct Ha as (front & buffer' & Hb & ->). simpl.
    rewrite Hb, <- app_assoc. simpl. done.
  - destruct Ha as (stack' & top & front & buffer' & Hs & Hb & ->). simpl.
    rewrite Hs, Hb, <- app_assoc. simpl. split; [| done].
    apply sublist_app; [done |]. by apply sublist_cons.
  - destruct Ha as (stack' & top & front & buffer' & Hs & Hb & ->). simpl.
    rewrite Hs, Hb, <- app_assoc. simpl. split; [| done].
    apply sublist_app; [done |]. apply sublist_skip. by apply sublist_cons.
Qed.

(** X7. A transition never brings a token into the working set and never
    reorders it: the stack followed by the buffer, after the transition,
    is a subsequence of what it was before, and Shift leaves it as it
    was. *)
Theorem Apply_working_set (t : Transition) (c c' : Configuration) :
  Apply t c = Returns c' →
  working_set c' `sublist_of` working_set c
  ∧ (t = asShift → working_set c' = working_set c).
Proof. apply Apply_sublist. Qed.

Lemma Apply_working_set_witness :
  let c := mkConfiguration [] [] [] [0; 1]%N [2; 3]%N ∅ in
  let c' := mkConfiguration [] [] [] [0]%N [1; 3]%N
              ({[mkDependency 1 "obj" 2]} ∪ ∅) in
  working_set c' `sublist_of` working_set c
  ∧ (asRightArc "obj" = asShift → working_set c' = working_set c).
Proof.
  intros c c'. apply (Apply_working_set (asRightArc "obj") c c').
  reflexivity.
Defined.

Lemma single_headed_add (arcs : DependencySet) (d : Dependency) :
  single_headed arcs →
  (∀ d', d' ∈ arcs → Dependent d' ≠ Dependent d) →
  single_headed ({[d]} ∪ arcs).
Proof.
  intros Hsh Hnew d1 d2 H1 H2 Heq.
  apply elem_of_union in H1 as [H1 | H1]; apply elem_of_union in H2 as [H2 | H2].
  - apply elem_of_singleton in H1, H2. congruence.
  - apply elem_of_singleton in H1. subst d1. exfalso. by apply (Hnew d2).
  - apply elem_of_singleton in H2. subst d2. exfalso. by apply (Hnew d1).
  - by apply Hsh.
Qed.

(** Attaching the token [x] of a working set [pre ++ x :: post] without
    repetition, and taking it out. *)
Lemma attached_once_attach (arcs : DependencySet) (pre post : list N)
    (d : Dependency) :
  NoDup (pre ++ Dependent d :: post) →
  (∀ d', d' ∈ arcs → Dependent d' ∉ pre ++ Dependent d :: post) →
  single_headed arcs →
  NoDup (pre ++ post)
  ∧ (∀ d', d' ∈ {[d]} ∪ arcs → Dependent d' ∉ pre ++ post)
  ∧ single_headed ({[d]} ∪ arcs).
Proof.
  intros Hnd Hout Hsh.
  apply NoDup_app in Hnd as (Hpre & Hdisj & Hpost).
  apply NoDup_cons in Hpost as (Hx & Hpost).
  split; [| split].
  - apply NoDup_app. split; [done |]. split; [| done].
    intros y Hy Hy'. apply (Hdisj y Hy). by right.
  - intros d' Hd'. apply elem_of_union in Hd' as [Hd' | Hd'].
    + apply elem_of_singleton in Hd'. subst d'.
      intros Hin. apply elem_of_app in Hin as [Hin | Hin]; [| done].
      apply (Hdisj _ Hin). by left.
    + intros Hin. apply (Hout d' Hd').
      apply elem_of_app in Hin as [Hin | Hin]; apply elem_of_app;
        [by left | right; by right].
  - apply single_headed_add; [done |].
    intros d' Hd' Heq. apply (Hout d' Hd'). rewrite Heq.
    apply elem_of_app. right. by left.
Qed.

Lemma Apply_keeps_attached_once (t : Transition) (c c' : Configuration) :
  Apply t c = Returns c' → attached_once c → attached_once c'.
Proof.
  intros Ha (Hnd & Hout & Hsh). apply Apply_inv in Ha.
  unfold attached_once, working_set in *.
  destruct t as [| l | r].
  - destruct Ha as (front & buffer' & Hb & ->). simpl.
    rewrite Hb in Hnd, Hout. rewrite <- app_assoc. simpl. done.
  - destruct Ha as (stack' & top & front & buffer' & Hs & Hb & ->). simpl.
    rewrite Hs, Hb, <- app_assoc in Hnd, Hout. simpl in Hnd, Hout.
    apply (attached_once_attach (Arcs c) stack' (front :: buffer')
             (mkDependency front l top)); done.
  - destruct Ha as (stack' & top & front & buffer' & Hs & Hb & ->). simpl.
    rewrite Hs, Hb, <- app_assoc in Hnd, Hout. simpl in Hnd, Hout.
    apply (attached_once_attach (Arcs c) (stack' ++ [top]) buffer'
             (mkDependency top r front)) in Hsh as (H1 & H2 & H3).
    + rewrite <- app_assoc in H1, H2. done.
    + by rewrite <- app_assoc.
    + by rewrite <- app_assoc.
Qed.

(** X8. The transitions keep this invariant: the tokens at work are
    pairwise distinct, a token that has received a head has left the
    stack and the buffer, and no token has two heads. *)
Theorem Apply_attached_once (t : Transition) (c c' : Configuration) :
  Apply t c = Returns c' → attached_once c → attached_once c'.
Proof. apply Apply_keeps_attached_once. Qed.

Lemma Apply_attached_once_witness :
  attached_once (mkConfiguration [] [] [] [0]%N [1; 3]%N
                   ({[mkDependency 1 "obj" 2]} ∪ ∅)).
Proof.
  apply (Apply_attached_once (asRightArc "obj")
           (mkConfiguration [] [] [] [0; 1]%N [2; 3]%N ∅)).
  - reflexivity.
  - split; [| split].
    + unfold working_set. simpl. apply (bool_decide_unpack _). reflexivity.
    + intros d Hd. by apply not_elem_of_empty in Hd.
    + intros d1 d2 Hd. by apply not_elem_of_empty in Hd.
Defined.

(** X9. The possible transitions are among the three archetypes, and
    there is none exactly in the terminal configurations. *)
Theorem PossibleTransitions_terminal (c : Configuration) :
  ArcStandard_PossibleTransitions NewArcStandard c
    ⊆ {[archetypeASShift; archetypeASLeftArc; archetypeASRightArc]}
  ∧ (ArcStandard_PossibleTransitions NewArcStandard c = ∅ ↔
     ArcStandard_IsTerminal NewArcStandard c = true).
Proof.
  split.
  - intros t Ht. unfold ArcStandard_PossibleTransitions in Ht.
    by apply elem_of_filter in Ht as [_ Ht].
  - split.
    + intros Hempty.
      destruct (ArcStandard_IsTerminal NewArcStandard c) eqn:Ht; [done |].
      assert (asShift ∈ ArcStandard_PossibleTransitions NewArcStandard c) as Hin.
      { unfold ArcStandard_PossibleTransitions. apply elem_of_filter. split.
        - simpl. apply asShift_IsPossible_iff.
          by apply (IsTerminal_false_iff NewArcStandard).
        - simpl. apply elem_of_union_l, elem_of_union_l. by apply elem_of_singleton. }
      rewrite Hempty in Hin. apply not_elem_of_empty in Hin. destruct Hin.
    + intros Ht. apply (IsTerminal_iff NewArcStandard) in Ht.
      apply leibniz_equiv. apply elem_of_equiv_empty. intros t Hin.
      unfold ArcStandard_PossibleTransitions in Hin.
      apply elem_of_filter in Hin as [Hp _].
      destruct t as [| l | r]; simpl in Hp.
      * by apply asShift_IsPossible_iff in Hp.
      * apply asLeftArc_IsPossible_shape in Hp
          as (? & ? & ? & ? & _ & Hb & _). by rewrite Ht in Hb.
      * apply asRightArc_IsPossible_shape in Hp
          as (? & ? & ? & ? & _ & Hb). by rewrite Ht in Hb.
Qed.

(** ** The parsing loop under any guide *)

Section AnyGuide.

Variable g : Guide.

Let p : GreedyParser := NewGreedyParser (ArcStandard_system NewArcStandard) g.

(** A turn of the loop that returns has applied one transition. *)
Lemma parseStep_inv (c c' : Configuration) :
  parseStep p c = Returns c' → ∃ t, g c = Returns t ∧ Apply t c = Returns c'.
Proof.
  unfold parseStep. simpl. destruct (g c) as [t | msg]; simpl; [eauto | done].
Qed.

Lemma parseConfiguration_total_fuel (fuel : nat) :
  ∀ c : Configuration, (measure c < fuel)%nat →
  ∃ r, GreedyParser_parseConfiguration fuel p c = Some r.
Proof.
  induction fuel as [| fuel IH]; intros c Hm; [lia |].
  simpl. destruct (ArcStandard_IsTerminal NewArcStandard c); simpl; [eauto |].
  destruct (parseStep p c) as [c' | msg] eqn:Hstep; [| eauto].
  apply IH. apply parseStep_inv in Hstep as (t & _ & Ha).
  apply Apply_exact in Ha as (Hm' & _). lia.
Qed.

Lemma parseSteps_measure_k (k : nat) :
  ∀ c c' : Configuration, parseSteps p k c = Returns c' →
  measure c = (k + measure c')%nat
  ∧ working_set c' `sublist_of` working_set c
  ∧ Arcs c ⊆ Arcs c'.
Proof.
  induction k as [| k IH]; intros c c'; simpl.
  - intros [= <-]. done.
  - destruct (parseStep p c) as [c1 | msg] eqn:Hstep; simpl; [| done].
    intros Hrun. apply IH in Hrun as (Hm & Hws & Harcs).
    apply parseStep_inv in Hstep as (t & _ & Ha).
    destruct (Apply_exact t c c1 Ha) as (Hm1 & _ & _ & _ & Harcs1 & _).
    destruct (Apply_sublist t c c1 Ha) as (Hws1 & _).
    split; [lia |]. split; [by etrans | by etrans].
Qed.

(** A property that every turn of the loop keeps holds of the
    configuration whose dependencies the loop returns. *)
Lemma parseConfiguration_invariant (P : Configuration → Prop) :
  (∀ c c', ArcStandard_IsTerminal NewArcStandard c = false →
           parseStep p c = Returns c' → P c → P c') →
  ∀ (fuel : nat) (c : Configuration) (deps : DependencySet),
    P c →
    GreedyParser_parseConfiguration fuel p c = Some (Returns deps) →
    ∃ c', P c' ∧ ArcStandard_IsTerminal NewArcStandard c' = true
          ∧ deps = Dependencies c'.
Proof.
  intros Hkeep. induction fuel as [| fuel IH]; intros c deps HP; [done |].
  simpl. destruct (ArcStandard_IsTerminal NewArcStandard c) eqn:Ht; simpl.
  - intros [= <-]. eauto.
  - destruct (parseStep p c) as [c1 | msg] eqn:Hstep; [| done].
    apply IH. by apply (Hkeep c c1).
Qed.

End AnyGuide.

(** X10. The loop of the parser cannot run forever, whatever the guide
    answers: started in [c] it has returned or panicked within
    [2 * |Buffer c| + |Stack c|] turns, so that any larger fuel gives a
    result. *)
Theorem parseConfiguration_total (g : Guide) (c : Configuration)
    (fuel : nat) :
  (2 * length (Buffer c) + length (Stack c) < fuel)%nat →
  ∃ r, GreedyParser_parseConfiguration fuel
         (NewGreedyParser (ArcStandard_system NewArcStandard) g) c = Some r.
Proof. apply parseConfiguration_total_fuel. Qed.

Lemma parseConfiguration_total_witness :
  ∃ r, GreedyParser_parseConfiguration 6
         (NewGreedyParser (ArcStandard_system NewArcStandard) always_left)
         (mkConfiguration [] [] [] [0]%N [1; 2]%N ∅) = Some r.
Proof.
  apply (parseConfiguration_total always_left
           (mkConfiguration [] [] [] [0]%N [1; 2]%N ∅) 6).
  simpl. lia.
Defined.

(** X11. [k] turns of the loop, under any guide, lower the measure
    [2 * |Buffer| + |Stack|] by exactly [k], keep the arcs, and leave a
    working set that is a subsequence of the one they started from. *)
Theorem parseSteps_measure (g : Guide) (k : nat) (c c' : Configuration) :
  parseSteps (NewGreedyParser (ArcStandard_system NewArcStandard) g) k c
    = Returns c' →
  (2 * length (Buffer c) + length (Stack c) =
   k + (2 * length (Buffer c') + length (Stack c')))%nat
  ∧ working_set c' `sublist_of` working_set c
  ∧ Arcs c ⊆ Arcs c'.
Proof. apply parseSteps_measure_k. Qed.

Lemma parseSteps_measure_witness :
  let c := mkConfiguration [] [] [] [0]%N [1; 2]%N ∅ in
  let c' := mkConfiguration [] [] [] [0; 1; 2]%N []%N ∅ in
  (2 * length (Buffer c) + length (Stack c) =
   2 + (2 * length (Buffer c') + length (Stack c')))%nat
  ∧ working_set c' `sublist_of` working_set c
  ∧ Arcs c ⊆ Arcs c'.
Proof.
  intros c c'.
  apply (parseSteps_measure (fun _ => Returns asShift) 2 c c'). reflexivity.
Defined.

(** X12. Started in a configuration whose working set has no repetition
    and holds no token that has a head already, with no token of two
    heads (an initial configuration, for one), the parser returns, under
    any guide, a dependency set in which no token has two heads. *)
Theorem parseConfiguration_single_headed (g : Guide) (fuel : nat)
    (c : Configuration) (deps : DependencySet) :
  attached_once c →
  GreedyParser_parseConfiguration fuel
    (NewGreedyParser (ArcStandard_system NewArcStandard) g) c
    = Some (Returns deps) →
  single_headed deps.
Proof.
  intros Hc Hrun.
  destruct (parseConfiguration_invariant g attached_once) with
    (fuel := fuel) (c := c) (deps := deps) as (c' & Hc' & _ & ->);
    try done.
  - intros c0 c1 _ Hstep. apply parseStep_inv in Hstep as (t & _ & Ha).
    by apply (Apply_keeps_attached_once t).
  - by destruct Hc' as (_ & _ & Hsh).
Qed.

Lemma parseConfiguration_single_headed_witness :
  single_headed
    ({[mkDependency 0 "root" 2; mkDependency 2 "nsubj" 1;
       mkDependency 2 "obj" 3]} : DependencySet).
Proof.
  apply (parseConfiguration_single_headed
           (ArcStandardOracle_BestTransition goldABC) 10
           (mkConfiguration [] [] [] [] [0; 1; 2; 3]%N ∅)).
  - split; [| split].
    + unfold working_set. simpl. apply (bool_decide_unpack _). reflexivity.
    + intros d Hd. by apply not_elem_of_empty in Hd.
    + intros d1 d2 Hd. by apply not_elem_of_empty in Hd.
  - apply (bool_decide_unpack _). vm_compute. reflexivity.
Defined.

(** ** The oracle as the guide of the parser *)








(** ** Reading the text form of a transition *)

Lemma prefix_empty (s : string) : String.prefix "" s = true.
Proof. by destruct s. Qed.

Lemma index_space_cons (a : ascii) (s : string) :
  String.index 0 " " (String a s) =
    if Ascii.eqb a " " then Some 0%nat
    else match String.index 0 " " s with
         | Some n => Some (S n)
         | None => None
         end.
Proof.
  cbn [String.index String.prefix].
  destruct (ascii_dec " " a) as [<- | Hne].
  - by rewrite prefix_empty.
  - destruct (Ascii.eqb_spec a " ") as [-> | _]; done.
Qed.

Lemma append_String (a : ascii) (s t : string) :
  (String a s ++ t)%string = String a (s ++ t)%string.
Proof. reflexivity. Qed.

Lemma append_Empty (t : string) : ("" ++ t)%string = t.
Proof. reflexivity. Qed.

Lemma substring_prefix (p x : string) :
  String.substring 0 (String.length p) (p ++ x) = p.
Proof.
  induction p as [| a p IH].
  - rewrite append_Empty. by destruct x.
  - rewrite append_String. simpl. by rewrite IH.
Qed.

Lemma substring_suffix (p r : string) :
  String.substring (String.length p + 1)
    (String.length (p ++ " " ++ r) - (String.length p + 1))
    (p ++ " " ++ r) = r.
Proof.
  induction p as [| a p IH].
  - rewrite append_Empty, append_String, append_Empty. simpl.
    rewrite Nat.sub_0_r. apply substring_all.
  - rewrite append_String. simpl. apply IH.
Qed.

(** The first space of a string, if there is one, with what stands
    before it and after it. *)
Lemma index_space_split (s : string) :
  match String.index 0 " " s with
  | None => True
  | Some m =>
      ∃ p r, s = (p ++ " " ++ r)%string ∧ String.length p = m ∧ spaceless p
  end.
Proof.
  induction s as [| a s IH]; [done |].
  rewrite index_space_cons.
  destruct (Ascii.eqb_spec a " ") as [-> | Hne].
  - exists ""%string, s. done.
  - destruct (String.index 0 " " s) as [m |] eqn:Hm; [| done].
    destruct IH as (p & r & -> & Hlen & Hp).
    exists (String a p), r. split; [done |]. split; [by rewrite <- Hlen |].
    unfold spaceless in *. rewrite index_space_cons.
    destruct (Ascii.eqb_spec a " "); [done |]. by rewrite Hp.
Qed.

Lemma spaceless_index_app (p r : string) :
  spaceless p →
  String.index 0 " " (p ++ " " ++ r) = Some (String.length p).
Proof.
  unfold spaceless. induction p as [| a p IH]; intros Hp.
  - rewrite append_Empty, append_String, append_Empty.
    by rewrite index_space_cons.
  - rewrite append_String, index_space_cons.
    rewrite index_space_cons in Hp.
    destruct (Ascii.eqb a " "); [done |].
    destruct (String.index 0 " " p) eqn:E; [done |].
    by rewrite IH.
Qed.

(** [SplitN(s, " ", 2)]: the whole string if it has no space, otherwise
    what stands before its first space and what stands after it. *)
Lemma SplitN_space_2 (s : string) :
  (spaceless s ∧ gostrings.SplitN s " " 2 = [s])
  ∨ (∃ p r, s = (p ++ " " ++ r)%string ∧ spaceless p
            ∧ gostrings.SplitN s " " 2 = [p; r]).
Proof.
  pose proof (index_space_split s) as H.
  unfold gostrings.SplitN, gostrings.split_upto.
  destruct (String.index 0 " " s) as [m |] eqn:Hm.
  - right. destruct H as (p & r & -> & <- & Hp). exists p, r.
    split; [done |]. split; [done |].
    rewrite substring_prefix.
    change (String.length " ") with 1%nat. by rewrite substring_suffix.
  - left. done.
Qed.

Lemma SplitN_space_app (p r : string) :
  spaceless p → gostrings.SplitN (p ++ " " ++ r) " " 2 = [p; r].
Proof.
  intros Hp. unfold gostrings.SplitN, gostrings.split_upto.
  rewrite (spaceless_index_app p r Hp), substring_prefix.
  change (String.length " ") with 1%nat. by rewrite substring_suffix.
Qed.

(** The deserializer on a string without a space and on a string cut at
    its first space. *)
Lemma Deserialize_spaceless (ts : ArcStandard) (s : string) :
  spaceless s →
  ArcStandard_DeserializeTransition ts s =
    if String.eqb s "LEFT_ARC"
    then Err "Left-Arc transition requires label argument"
    else if String.eqb s "RIGHT_ARC"
    then Err "Right-Arc transition requires label argument"
    else if String.eqb s "SHIFT" then Ok asShift
    else Err ("Unknown transition: " ++ s)%string.
Proof.
  intros Hs. unfold ArcStandard_DeserializeTransition.
  destruct (SplitN_space_2 s) as [[_ ->] | (p & r & -> & Hp & _)]; [done |].
  unfold spaceless in Hs. by rewrite (spaceless_index_app p r Hp) in Hs.
Qed.

Lemma Deserialize_spaced (ts : ArcStandard) (p r : string) :
  spaceless p →
  ArcStandard_DeserializeTransition ts (p ++ " " ++ r) =
    if String.eqb p "LEFT_ARC" then Ok (asLeftArc r)
    else if String.eqb p "RIGHT_ARC" then Ok (asRightArc r)
    else if String.eqb p "SHIFT" then Ok asShift
    else Err ("Unknown transition: " ++ p)%string.
Proof.
  intros Hp. unfold ArcStandard_DeserializeTransition.
  by rewrite (SplitN_space_app p r Hp).
Qed.

(** X15. The deserializer yields LeftArc(rel) exactly on the string
    "LEFT_ARC " followed by [rel], and RightArc(rel) exactly on
    "RIGHT_ARC " followed by [rel]: for the arc transitions the text form
    read back is the one the serializer writes, and no other. *)
Theorem Deserialize_arc_exact (ts : ArcStandard) (s rel : string) :
  (ArcStandard_DeserializeTransition ts s = Ok (asLeftArc rel) ↔
   s = ("LEFT_ARC " ++ rel)%string)
  ∧ (ArcStandard_DeserializeTransition ts s = Ok (asRightArc rel) ↔
     s = ("RIGHT_ARC " ++ rel)%string).
Proof.
  split; split.
  - destruct (SplitN_space_2 s) as [[Hs _] | (p & r & -> & Hp & _)].
    + rewrite (Deserialize_spaceless ts s Hs). by repeat case_match.
    + rewrite (Deserialize_spaced ts p r Hp).
      destruct (String.eqb_spec p "LEFT_ARC") as [-> | _];
        [by intros [= ->] | by repeat case_match].
  - intros ->. unfold ArcStandard_DeserializeTransition.
    by rewrite SplitN_LEFT_ARC.
  - destruct (SplitN_space_2 s) as [[Hs _] | (p & r & -> & Hp & _)].
    + rewrite (Deserialize_spaceless ts s Hs). by repeat case_match.
    + rewrite (Deserialize_spaced ts p r Hp).
      destruct (String.eqb_spec p "LEFT_ARC") as [-> | _]; [done |].
      destruct (String.eqb_spec p "RIGHT_ARC") as [-> | _];
        [by intros [= ->] | by repeat case_match].
  - intros ->. unfold ArcStandard_DeserializeTransition.
    by rewrite SplitN_RIGHT_ARC.
Qed.

(** X16. The deserializer yields Shift on "SHIFT" and on "SHIFT "
    followed by any text, which it ignores, and on no other string: a
    string that reads as Shift need not be the one the serializer
    writes. *)
Theorem Deserialize_shift (ts : ArcStandard) (s : string) :
  ArcStandard_DeserializeTransition ts s = Ok asShift ↔
  s = "SHIFT"%string ∨ ∃ rest, s = ("SHIFT " ++ rest)%string.
Proof.
  split.
  - destruct (SplitN_space_2 s) as [[Hs _] | (p & r & -> & Hp & _)].
    + rewrite (Deserialize_spaceless ts s Hs).
      destruct (String.eqb_spec s "SHIFT") as [-> | _];
        [by left | by repeat case_match].
    + rewrite (Deserialize_spaced ts p r Hp).
      destruct (String.eqb_spec p "SHIFT") as [-> | _];
        [right; by exists r | by repeat case_match].
  - intros [-> | [rest ->]]; [done |].
    change ("SHIFT " ++ rest)%string with ("SHIFT" ++ " " ++ rest)%string.
    by rewrite (Deserialize_spaced ts "SHIFT" rest).
Qed.



End system_extra.

(** ** The string form and the hash input of an addressed value *)

Module features_extra.

Import system features features_spec goruntime_facts system_extra.

Lemma append_assoc (s t u : string) :
  ((s ++ t) ++ u)%string = (s ++ (t ++ u))%string.
Proof.
  induction s as [| a s IH]; [done |].
  rewrite !append_String. by rewrite IH.
Qed.

Lemma append_Empty_r (s : string) : (s ++ "")%string = s.
Proof.
  induction s as [| a s IH]; [done |]. rewrite append_String. by rewrite IH.
Qed.

(** Past the first component every component is written after a comma. *)
Lemma appendAddress_range_S (components : list AddressComponent.t) :
  ∀ (idx : nat) (buf : string),
  appendAddress_range components (S idx) buf =
    (buf ++ String.concat ""
              (map (fun c => ("," ++ component_text c)%string) components))%string.
Proof.
  induction components as [| c rest IH]; intros idx buf.
  - simpl. by rewrite ?append_Empty_r.
  - cbn [appendAddress_range map Nat.eqb negb]. rewrite IH.
    unfold WriteString, WriteByte, component_text.
    destruct rest as [| c' rest'].
    + cbn [map String.concat]. rewrite ?append_Empty_r.
      by rewrite ?append_assoc.
    + cbn [map String.concat]. rewrite ?append_Empty.
      by rewrite ?append_assoc.
Qed.

Lemma concat_comma (c : AddressComponent.t) (rest : list AddressComponent.t) :
  String.concat "," (map component_text (c :: rest)) =
    (component_text c
     ++ String.concat ""
          (map (fun c => ("," ++ component_text c)%string) rest))%string.
Proof.
  revert c. induction rest as [| c' rest IH]; intros c.
  - cbn [map String.concat]. by rewrite ?append_Empty_r.
  - cbn [map String.concat] in *. rewrite IH.
    destruct rest as [| c'' rest'].
    + cbn [map String.concat]. rewrite ?append_Empty_r.
      by rewrite ?append_assoc.
    + cbn [map String.concat]. rewrite ?append_Empty.
      by rewrite ?append_assoc.
Qed.

Lemma appendAddress_text (a : AddressedValue.t) (buf : string) :
  appendAddress a buf =
    (buf ++ "addr(" ++ address_text (AddressedValue.Address a) ++ ")")%string.
Proof.
  unfold appendAddress, address_text.
  destruct (AddressedValue.Address a) as [| c rest].
  - cbn [appendAddress_range map String.concat].
    unfold WriteString, WriteByte. by rewrite ?append_assoc.
  - rewrite concat_comma. cbn [appendAddress_range Nat.eqb negb].
    rewrite appendAddress_range_S.
    unfold WriteString, WriteByte, component_text.
    by rewrite ?append_assoc.
Qed.

Lemma appendFeature_closed (a : AddressedValue.t) (buf : string) :
  appendFeature a buf =
    (buf ++ "av(addr(" ++ address_text (AddressedValue.Address a) ++ "),"
         ++ FormatUint10 (uint64_of_int (AddressedValue.Layer a))
         ++ (if (AddressedValue.Layer a =? FEATURE)%Z
             then ":" ++ AddressedValue.LayerArg a else "")
         ++ AddressedValue.Value a ++ ")")%string.
Proof.
  unfold appendFeature. rewrite appendAddress_text.
  unfold WriteString, WriteByte.
  destruct (AddressedValue.Layer a =? FEATURE);
    rewrite ?append_assoc, ?append_Empty; reflexivity.
Qed.

(** X18. [appendFeature] only appends: it leaves the content of the
    buffer in place and adds "av(addr(" and the address path, the
    components as [source-index] separated by commas, then "),", the
    layer number, for the FEATURE layer ":" and the feature argument,
    then the value and ")". *)
Theorem appendFeature_text (a : AddressedValue.t) (buf : string) :
  appendFeature a buf =
    (buf ++ "av(addr(" ++ address_text (AddressedValue.Address a) ++ "),"
         ++ FormatUint10 (uint64_of_int (AddressedValue.Layer a))
         ++ (if (AddressedValue.Layer a =? FEATURE)%Z
             then ":" ++ AddressedValue.LayerArg a else "")
         ++ AddressedValue.Value a ++ ")")%string
  ∧ appendFeature a buf = (buf ++ appendFeature a "")%string.
Proof.
  split; [apply appendFeature_closed |].
  rewrite (appendFeature_closed a buf), (appendFeature_closed a "").
  by rewrite ?append_Empty.
Qed.

(** X19. For the FEATURE layer the string form does not tell where the
    feature argument ends and the value starts: moving text from the end
    of the argument to the front of the value gives the same string. *)
Theorem appendFeature_argument_value (address : list AddressComponent.t)
    (arg middle value buf : string) :
  appendFeature (AddressedValue.mk address FEATURE (arg ++ middle) value) buf =
  appendFeature (AddressedValue.mk address FEATURE arg (middle ++ value)) buf.
Proof.
  rewrite !appendFeature_closed. cbn [AddressedValue.Layer
    AddressedValue.LayerArg AddressedValue.Value AddressedValue.Address].
  change (FEATURE =? FEATURE) with true. cbn iota.
  by rewrite ?append_assoc.
Qed.

End features_extra.

(** ** Resolution misses and contract violations of [Get] *)

Module features_get_extra.

Import system features goruntime_facts.

Section Resolution.

Variable LeftmostDependent : Configuration → N → N → option N.
Variable RightmostDependent : Configuration → N → N → option N.
Variable ConfigurationHead : Configuration → N → option Dependency.

Let Get := Get LeftmostDependent RightmostDependent ConfigurationHead.

(** X20. Whenever [Get] reports a value as unavailable, the string it
    returns with [false] is the empty one. *)
Theorem Get_unavailable_empty (a : AddressedValue.t) (c : Configuration)
    (s : string) :
  Get a c = Returns (s, false) → s = ""%string.
Proof.
  unfold Get, features.Get.
  destruct (Get_range LeftmostDependent RightmostDependent c
              (AddressedValue.Address a) 0 0%N) as [[token |] | msg];
    cbn [mbind go_bind]; [| by intros [= <-] | discriminate].
  destruct (AddressedValue.Layer a =? TOKEN).
  { destruct (index (Tokens c) (Z.of_N token)); cbn [mbind go_bind];
      discriminate. }
  destruct (AddressedValue.Layer a =? TAG).
  { destruct (index (Tags c) (Z.of_N token)); cbn [mbind go_bind];
      discriminate. }
  destruct (AddressedValue.Layer a =? DEPREL).
  { destruct (ConfigurationHead c token); [discriminate | by intros [= <-]]. }
  destruct (AddressedValue.Layer a =? FEATURE); [| discriminate].
  destruct (index (Features c) (Z.of_N token)) as [[featuresMap |] | msg];
    cbn [mbind go_bind]; [| by intros [= <-] | discriminate].
  destruct (featuresMap !! AddressedValue.LayerArg a);
    [discriminate | by intros [= <-]].
Qed.

(** X21. An address path that starts with LDEP or RDEP makes [Get]
    panic, whatever the configuration, the rest of the path and the
    layer. *)
Theorem Get_dependent_first_panics (c : Configuration) (k : N)
    (rest : list AddressComponent.t) (layer : Layer) (arg value : string) :
  Get (AddressedValue.mk (AddressComponent.mk LDEP k :: rest) layer arg value) c
    = Panics "LDEP cannot be an initial address component"
  ∧ Get (AddressedValue.mk (AddressComponent.mk RDEP k :: rest) layer arg value) c
    = Panics "RDEP cannot be an initial address component".
Proof. split; reflexivity. Qed.

End Resolution.

Lemma Get_unavailable_empty_witness : (""%string : string) = ""%string.
Proof.
  apply (Get_unavailable_empty (fun _ _ _ => None) (fun _ _ _ => None)
           (fun _ _ => None)
           (AddressedValue.mk [AddressComponent.mk STACK 2] TOKEN "" "")
           (mkConfiguration ["ROOT"; "a"]%string [] [] [0; 1]%N [] ∅)).
  reflexivity.
Defined.

End features_get_extra.

(** ** What the hashing SVM guide returns *)

Module ml_extra.

Import system ml ml_spec goruntime_facts ml_theory.

Section BestLabel.

Variable g : HashingSVMGuide.
Variable c : Configuration.
Variable labels : list Z.

(** The loop keeps a best label that is nil or legal. *)
Lemma bestLabel_range_legal (values : list float) :
  ∀ (idx : nat) (bestValue : float) (bestLabel r : option Transition),
  (∀ t, bestLabel = Some t → IsPossible t c = true) →
  bestLabel_range g c labels idx values bestValue bestLabel = Returns r →
  ∀ t, r = Some t → IsPossible t c = true.
Proof.
  induction values as [| value rest IH];
    intros idx bestValue bestLabel r Hbest; simpl.
  - intros [= <-]. exact Hbest.
  - destruct (value <? bestValue)%float; [by apply IH |].
    destruct (index labels (Z.of_nat idx)) as [numLabel | msg];
      cbn [mbind go_bind]; [| discriminate].
    destruct (IsPossible (labelNumberer g numLabel) c) eqn:Hp; cbn [negb].
    + apply IH. intros t [= <-]. exact Hp.
    + by apply IH.
Qed.

End BestLabel.

(** X22. The hashing SVM guide never proposes an illegal transition:
    what it returns is nil or a transition that is legal in the
    configuration. *)
Theorem BestTransition_returns_legal (g : HashingSVMGuide)
    (c : Configuration) (t : Transition) :
  HashingSVMGuide_BestTransition g c = Returns (Some t) →
  IsPossible t c = true.
Proof.
  unfold HashingSVMGuide_BestTransition.
  destruct (boundFeatures (maxFeatures g) (featureGenerator g c))
    as [x | msg]; cbn [mbind go_bind]; [| discriminate].
  intros Hr.
  assert (∀ t0, @None Transition = Some t0 → IsPossible t0 c = true) as Hnil
    by (intros t0 Ht0; discriminate Ht0).
  exact (bestLabel_range_legal g c _ _ _ _ _ (Some t) Hnil Hr t eq_refl).
Qed.

Lemma BestTransition_returns_legal_witness :
  IsPossible (asRightArc "obj") tied_configuration = true.
Proof.
  apply (BestTransition_returns_legal tied_guide tied_configuration).
  reflexivity.
Defined.

(** X23. With a bound of zero features the guide panics on a division by
    zero as soon as the feature vector is not empty. *)
Theorem BestTransition_zero_bound (g : HashingSVMGuide) (c : Configuration) :
  maxFeatures g = 0%N → featureGenerator g c ≠ [] →
  HashingSVMGuide_BestTransition g c = Panics "integer divide by zero".
Proof.
  intros Hm Hx. unfold HashingSVMGuide_BestTransition. rewrite Hm.
  destruct (featureGenerator g c) as [| fv rest]; [done |].
  reflexivity.
Qed.

Lemma BestTransition_zero_bound_witness :
  HashingSVMGuide_BestTransition
    (NewHashingSVMGuide (mkModel (fun _ => []) []) 
       (fun _ => [mkFeatureValue 5 1%float]) (fun _ => asShift) 0)
    tied_configuration
  = Panics "integer divide by zero".
Proof.
  apply (BestTransition_zero_bound
           (NewHashingSVMGuide (mkModel (fun _ => []) [])
              (fun _ => [mkFeatureValue 5 1%float]) (fun _ => asShift) 0)
           tied_configuration).
  - reflexivity.
  - simpl. discriminate.
Defined.

End ml_extra.
